(** * Periodic KDTree: [MDAnalysis.lib.pkdtree]

    A shallow embedding of [package/MDAnalysis/lib/pkdtree.py] and the
    properties of its periodic neighbour search.

    Numbers.  NumPy's floating-point scalars are read as exact rationals
    ([Q]); every arithmetic step of the source is kept, only its rounding
    is idealised, and an array holds numbers only (no NaN, no infinity).
    Where rounding decides a stated property, which is the case of the
    wrapping expression, [Module Binary64] evaluates the same expression
    on IEEE binary64 values.

    Arrays.  A NumPy array is its shape together with its elements in
    row-major order.  One-dimensional arrays of length [dim] (the box, a
    centre, a displacement) are plain lists.

    Effects.  The methods of [PeriodicKDTree] read and write the fields of
    [self] and may raise; they live in a state-and-exception monad whose
    outcome always carries the object as the method left it. *)

From Stdlib Require Import String.
From Stdlib Require Import QArith Qround ZArith List Bool Arith Lia Lqa.
From Stdlib Require Import Permutation Sorted.
From Stdlib Require PrimFloat.
Import ListNotations.

Local Open Scope Q_scope.
Local Open Scope list_scope.

(** ** Scalars *)

Definition Qgtb (x y : Q) : bool := negb (Qle_bool x y).
Definition Qltb (x y : Q) : bool := negb (Qle_bool y x).
Definition Qgeb (x y : Q) : bool := Qle_bool y x.
Definition Qneqb (x y : Q) : bool := negb (Qeq_bool x y).

Definition Qmin' (x y : Q) : Q := if Qle_bool x y then x else y.
Definition Qmax' (x y : Q) : Q := if Qle_bool x y then y else x.

(** [np.floor] on a scalar. *)
Definition floor (x : Q) : Q := inject_Z (Qfloor x).

(** ** One-dimensional arrays *)

Definition vec := list Q.

Fixpoint zip_with {A B C : Type} (f : A -> B -> C) (a : list A) (b : list B)
  : list C :=
  match a, b with
  | x :: a', y :: b' => f x y :: zip_with f a' b'
  | _, _ => []
  end.

Definition np_add : vec -> vec -> vec := zip_with Qplus.
Definition np_sub : vec -> vec -> vec := zip_with Qminus.
Definition np_mul : vec -> vec -> vec := zip_with Qmult.
Definition np_div : vec -> vec -> vec := zip_with Qdiv.
Definition np_floor : vec -> vec := map floor.
Definition np_zeros (n : nat) : vec := repeat 0 n.

(** [np.where(cond, a, y)] with an array [a] and a scalar [y]. *)
Definition np_where (cond : list bool) (a : vec) (y : Q) : vec :=
  zip_with (fun (c : bool) x => if c then x else y) cond a.

(** [np.where(cond, y, a)] with a scalar [y] and an array [a]. *)
Definition np_where_l (cond : list bool) (y : Q) (a : vec) : vec :=
  zip_with (fun (c : bool) x => if c then y else x) cond a.

(** [a[i]] and the assignment [a[i] = x], for [i] within the array. *)
Definition item (a : vec) (i : nat) : Q := nth i a 0.

Fixpoint setitem (a : vec) (i : nat) (x : Q) : vec :=
  match a, i with
  | [], _ => []
  | _ :: a', O => x :: a'
  | y :: a', S i' => y :: setitem a' i' x
  end.

(** ** Arrays of any shape *)

Record ndarray := mk_ndarray { shape : list nat; flat : list Q }.

Definition shape_eqb (s t : list nat) : bool :=
  if list_eq_dec Nat.eq_dec s t then true else false.

(** The rows of an [(n, w)] array. *)
Fixpoint rows (n w : nat) (elems : list Q) : list vec :=
  match n with
  | O => []
  | S n' => firstn w elems :: rows n' w (skipn w elems)
  end.

(** ** Exceptions *)

Inductive exn :=
| Exception (msg : string)
| ValueError (msg : string).

(** The exceptions the class raises, under the names the specification
    gives them. *)
Definition ConfigurationError_length : exn :=
  Exception "Expected array of length 3".
Definition ConfigurationError_aperiodic : exn :=
  Exception "No periodic axis found".
Definition RangeError : exn :=
  Exception "Points should lie between -1e6 and 1e6".
Definition ShapeError_coords : exn :=
  Exception "Expected a (N, 3) NumPy array".
Definition NotBuiltError : exn :=
  Exception "No point set specified".
Definition ShapeError : exn :=
  Exception "Expected a (3,) NumPy array".
(** What NumPy raises for [min] or [max] of an array without elements. *)
Definition ZeroSizeError : exn :=
  ValueError "zero-size array to reduction operation".

Inductive outcome (A : Type) :=
| Ok (a : A)
| Raise (e : exn).
Arguments Ok {A} a.
Arguments Raise {A} e.

(** ** NumPy reductions and index arrays *)

(** [a.min()] and [a.max()]; [None] stands for the [ValueError] of an
    empty array. *)
Definition np_min (a : list Q) : option Q :=
  match a with
  | [] => None
  | x :: a' => Some (fold_left Qmin' a' x)
  end.

Definition np_max (a : list Q) : option Q :=
  match a with
  | [] => None
  | x :: a' => Some (fold_left Qmax' a' x)
  end.

Definition np_arange (n : nat) : list nat := seq 0 n.
Definition np_append (a b : list nat) : list nat := a ++ b.

Fixpoint insert_sorted (x : nat) (l : list nat) : list nat :=
  match l with
  | [] => [x]
  | y :: l' => if (x <=? y)%nat then x :: l else y :: insert_sorted x l'
  end.

(** [np.sort] of an index array. *)
Definition np_sort (a : list nat) : list nat :=
  fold_right insert_sorted [] a.

Fixpoint squeeze (l : list nat) : list nat :=
  match l with
  | [] => []
  | x :: l' =>
      match l' with
      | [] => [x]
      | y :: _ => if (x =? y)%nat then squeeze l' else x :: squeeze l'
      end
  end.

(** [np.unique]: sort, then keep one of each run of equal values. *)
Definition np_unique (a : list nat) : list nat := squeeze (np_sort a).

(** ** The box and wrapping *)

Definition dim : nat := 3.

(** [box > 0.0], elementwise. *)
Definition periodic_axes (box : vec) : list bool :=
  map (fun b => Qgtb b 0) box.

(** [x - np.where(box > 0.0, np.floor(x / box) * box, 0.0)], the expression
    of [set_coords] and [find_centers]. *)
Definition wrap (box x : vec) : vec :=
  np_sub x (np_where (periodic_axes box)
                     (np_mul (np_floor (np_div x box)) box) 0).

(** One coordinate [x] of the wrapping expression, on an axis of length
    [b]. *)
Definition wrap_coordinate (b x : Q) : Q :=
  x - (if Qgtb b 0 then floor (x / b) * b else 0).

(** A box as the constructor leaves it: three lengths, none negative (zero
    marks an axis that is not periodic), one at least positive. *)
Definition valid_box (box : vec) : Prop :=
  List.length box = dim /\ Forall (fun b => 0 <= b) box /\
  Exists (fun b => 0 < b) box.

(** ** [find_centers] *)

(** The loop over [range(self.dim)]: one displacement at most per axis. *)
Definition axis_displacement (box wrapped_center extents : vec)
  (displacements : list vec) (i : nat) : list vec :=
  let displacement := np_zeros dim in
  let extent := item extents i in
  if Qgtb extent 0 then
    if Qltb (item box i - item wrapped_center i) extent then
      displacements ++ [setitem displacement i (- item box i)]
    else if Qltb (item wrapped_center i) extent then
      displacements ++ [setitem displacement i (item box i)]
    else displacements
  else displacements.

Definition axis_displacements (box wrapped_center : vec) (radius : Q)
  : list vec :=
  let extents := map (fun b => b / 2) box in
  let extents :=
    np_where_l (map (fun e => Qgtb e radius) extents) radius extents in
  fold_left (axis_displacement box wrapped_center extents) (seq 0 dim) [].

(** [range(a, b)]. *)
Definition range (a b : nat) : list nat := seq a (b - a).

(** [range(n - 1, -1, -1)]. *)
Definition range_down (n : nat) : list nat := rev (seq 0 n).

Definition nth_vec (l : list vec) (i : nat) : vec := nth i l [].

(** The two nested loops that add the sums of displacements.  The bound
    [len(displacements)] of the inner [range] is read once, when that loop
    is entered; the body reads the list as it is at that moment. *)
Definition combine_displacements (displacements : list vec) : list vec :=
  let n_displacements := length displacements in
  if (1 <? n_displacements)%nat then
    fold_left
      (fun ds start =>
         fold_left
           (fun ds' i => ds' ++ [np_add (nth_vec ds' start) (nth_vec ds' i)])
           (range (start + 1) (length ds)) ds)
      (range_down n_displacements) displacements
  else displacements.

Definition find_centers (box center : vec) (radius : Q) : list vec :=
  let wrapped_center := wrap box center in
  let centers := [wrapped_center] in
  let displacements := axis_displacements box wrapped_center radius in
  let displacements := combine_displacements displacements in
  centers ++ map (fun d => np_add wrapped_center d) displacements.

(** ** The class *)

(** [Bio.KDTree._CKDTree.KDTree] is a compiled extension that is not part
    of this repository.  The object below keeps what the class hands to it
    ([set_data]) and what it hands back ([get_indices]). *)
Record KDTree := mk_KDTree {
  bucket_size : nat;
  data : list vec;
  found : option (list nat)
}.

Record PeriodicKDTree := mk_PeriodicKDTree {
  kdt : KDTree;
  built : bool;
  box : vec;
  _indices : option (list nat)
}.

Definition with_kdt (t : KDTree) (self : PeriodicKDTree) : PeriodicKDTree :=
  mk_PeriodicKDTree t (built self) (box self) (_indices self).
Definition with_built (b : bool) (self : PeriodicKDTree) : PeriodicKDTree :=
  mk_PeriodicKDTree (kdt self) b (box self) (_indices self).
Definition with_indices (r : option (list nat)) (self : PeriodicKDTree)
  : PeriodicKDTree :=
  mk_PeriodicKDTree (kdt self) (built self) (box self) r.

(** *** Methods as state transformers that may raise *)

Definition method (A : Type) : Type :=
  PeriodicKDTree -> outcome A * PeriodicKDTree.

Definition ret {A : Type} (a : A) : method A := fun self => (Ok a, self).

Definition raise {A : Type} (e : exn) : method A :=
  fun self => (Raise e, self).

Definition bind {A B : Type} (m : method A) (k : A -> method B) : method B :=
  fun self =>
    match m self with
    | (Ok a, self') => k a self'
    | (Raise e, self') => (Raise e, self')
    end.

Declare Scope method_scope.
Delimit Scope method_scope with method.
Notation "x <- m ;; k" := (bind m (fun x => k))
  (at level 61, m at next level, right associativity) : method_scope.
Notation "m ;; k" := (bind m (fun _ => k))
  (at level 61, right associativity) : method_scope.

Definition read {A : Type} (field : PeriodicKDTree -> A) : method A :=
  fun self => (Ok (field self), self).

Definition assign (update : PeriodicKDTree -> PeriodicKDTree) : method unit :=
  fun self => (Ok tt, update self).

(** [for x in l: body(x)]. *)
Fixpoint for_each {A : Type} (l : list A) (body : A -> method unit)
  : method unit :=
  match l with
  | [] => ret tt
  | x :: l' => bind (body x) (fun _ => for_each l' body)
  end.

(** A length in the box passed to the constructor: a number or [np.inf]. *)
Inductive length_or_inf :=
| Len (q : Q)
| Inf.

Section Class.

(** The external tree, as the class sees it: the value of
    [get_indices()] after [search_center_radius(center, radius)] on a
    tree holding [data].  [None] is Python's [None].  The calls of the
    tree are taken to return normally. *)
Variable radius_indices : list vec -> vec -> Q -> option (list nat).

Definition KDTree_set_data (d : list vec) (t : KDTree) : KDTree :=
  mk_KDTree (bucket_size t) d None.

Definition KDTree_search_center_radius (c : vec) (radius : Q) (t : KDTree)
  : KDTree :=
  mk_KDTree (bucket_size t) (data t) (radius_indices (data t) c radius).

Definition KDTree_get_indices (t : KDTree) : option (list nat) := found t.

(** [__init__(self, box, bucket_size=10)] *)
Definition init (box0 : list length_or_inf) (bucket : nat)
  : outcome PeriodicKDTree :=
  let kdt0 := mk_KDTree bucket [] None in
  if negb (List.length box0 =? dim)%nat then Raise ConfigurationError_length
  else
    let b := map (fun l => match l with Inf => 0 | Len q => q end) box0 in
    let b := map (fun x => if Qgtb x 0 then x else 0) b in
    if negb (existsb (fun x => Qneqb x 0) b)
    then Raise ConfigurationError_aperiodic
    else Ok (mk_PeriodicKDTree kdt0 false b (Some [])).

Definition out_of_range_low (m : Q) : bool := Qle_bool m (- (1000000)).
Definition out_of_range_high (m : Q) : bool := Qgeb m 1000000.

(** [coords.min() <= -1e6 or coords.max() >= 1e6]; [or] evaluates its
    right operand only when the left one is false. *)
Definition range_guard (coords : ndarray) : outcome bool :=
  match np_min (flat coords) with
  | None => Raise ZeroSizeError
  | Some lo =>
      if out_of_range_low lo then Ok true
      else match np_max (flat coords) with
           | None => Raise ZeroSizeError
           | Some hi => Ok (out_of_range_high hi)
           end
  end.

(** A coordinate the guard refuses. *)
Definition outside_bound (x : Q) : Prop :=
  x <= - (1000000) \/ 1000000 <= x.

(** [len(coords.shape) != 2 or coords.shape[1] != self.dim] *)
Definition bad_coords_shape (coords : ndarray) : bool :=
  match shape coords with
  | [_; w] => negb (w =? dim)%nat
  | _ => true
  end.

(** The rows of [coords], each wrapped: the broadcast of the wrapping
    expression over an [(N, 3)] array. *)
Definition wrapped_data (b : vec) (coords : ndarray) : list vec :=
  map (wrap b) (rows (hd O (shape coords)) dim (flat coords)).

(** [set_coords(self, coords)] *)
Definition set_coords (coords : ndarray) : method unit :=
  (match range_guard coords with
   | Raise e => raise e
   | Ok true => raise RangeError
   | Ok false =>
       if bad_coords_shape coords then raise ShapeError_coords
       else
         b <- read box ;;
         t <- read kdt ;;
         assign (with_kdt (KDTree_set_data (wrapped_data b coords) t)) ;;
         assign (with_built true)
   end)%method.

(** The body of the loop of [search], for one image centre [c].  The
    array that [np.append] returns is not bound to anything. *)
Definition query_image (radius : Q) (c : vec) : method unit :=
  (t <- read kdt ;;
   assign (with_kdt (KDTree_search_center_radius c radius t)) ;;
   idx <- read _indices ;;
   match idx with
   | None =>
       t' <- read kdt ;;
       assign (with_indices (KDTree_get_indices t'))
   | Some a =>
       let _ := np_append a (np_arange 2) in ret tt
   end)%method.

(** The tree after the queries of the loop of [search]. *)
Definition queried (radius : Q) (centers : list vec) (t : KDTree) : KDTree :=
  fold_left (fun t c => KDTree_search_center_radius c radius t) centers t.

(** [search(self, center, radius)] *)
Definition search (center : ndarray) (radius : Q) : method unit :=
  (is_built <- read built ;;
   if negb is_built then raise NotBuiltError
   else if negb (shape_eqb (shape center) [dim]) then raise ShapeError
   else
     assign (with_indices None) ;;
     b <- read box ;;
     for_each (find_centers b (flat center) radius) (query_image radius) ;;
     idx <- read _indices ;;
     match idx with
     | Some a => assign (with_indices (Some (np_sort (np_unique a))))
     | None => ret tt
     end)%method.

(** [get_indices(self)] *)
Definition get_indices : method (option (list nat)) := read _indices.

(** *** Sequences of calls on one object

    A caller may catch an exception and go on using the object, so a
    history is a list of calls, each applied to the object as the one
    before left it. *)

Inductive call :=
| call_set_coords (coords : ndarray)
| call_search (center : ndarray) (radius : Q).

Definition perform (c : call) : method unit :=
  match c with
  | call_set_coords coords => set_coords coords
  | call_search center radius => search center radius
  end.

Fixpoint after (calls : list call) (self : PeriodicKDTree) : PeriodicKDTree :=
  match calls with
  | [] => self
  | c :: calls' => after calls' (snd (perform c self))
  end.

(** Some call of [set_coords] in the history returned normally. *)
Fixpoint point_set_built (calls : list call) (self : PeriodicKDTree) : bool :=
  match calls with
  | [] => false
  | c :: calls' =>
      match c, fst (perform c self) with
      | call_set_coords _, Ok _ => true
      | _, _ => point_set_built calls' (snd (perform c self))
      end
  end.

(** The first answer of the tree that is not [None]. *)
Fixpoint first_found (answers : list (option (list nat)))
  : option (list nat) :=
  match answers with
  | [] => None
  | Some a :: _ => Some a
  | None :: answers' => first_found answers'
  end.

(** The answers of the tree, one per image centre, in the order of the
    queries. *)
Definition image_answers (d : list vec) (b : vec) (center : vec) (radius : Q)
  : list (option (list nat)) :=
  map (fun c => radius_indices d c radius) (find_centers b center radius).

(** The result as the specification words it: the union of the indices
    of all the per-image queries, without repeats, ascending. *)
Definition spec_union (answers : list (option (list nat))) : list nat :=
  np_sort (np_unique
    (concat (map (fun r => match r with Some a => a | None => [] end)
                 answers))).

End Class.

(** ** A radius query by exhaustive scan *)

Definition sq (x : Q) : Q := x * x.

Definition dist2 (a b : vec) : Q :=
  fold_right Qplus 0 (map sq (np_sub a b)).

Definition indices_where (ok : vec -> bool) (d : list vec) : list nat :=
  map fst (filter (fun ip => ok (snd ip)) (combine (seq 0 (List.length d)) d)).

(** Modelled from the spec: the radius query of the spatial index, which
    the source delegates to [Bio.KDTree._CKDTree] (not in this
    repository).  It answers the indices of the stored points whose
    squared distance to the centre is at most [radius * radius], in the
    order of the points; [when_empty] is what [get_indices] answers when
    no point qualifies. *)
Definition scan_indices (when_empty : option (list nat))
  (d : list vec) (c : vec) (radius : Q) : option (list nat) :=
  match indices_where (fun p => Qle_bool (dist2 p c) (radius * radius)) d with
  | [] => when_empty
  | l => Some l
  end.


(** ** The image set as the specification words it *)

(** The axis [i] is boundary-adjacent: its extent [min(box[i]/2, radius)]
    is positive and the wrapped centre is closer than it to the upper or to
    the lower face. *)
Definition extent (b radius : Q) : Q :=
  if Qgtb (b / 2) radius then radius else b / 2.

Definition near_upper (box c : vec) (radius : Q) (i : nat) : bool :=
  Qgtb (extent (item box i) radius) 0
  && Qltb (item box i - item c i) (extent (item box i) radius).

Definition near_lower (box c : vec) (radius : Q) (i : nat) : bool :=
  Qgtb (extent (item box i) radius) 0
  && Qltb (item c i) (extent (item box i) radius).

Definition flagged (box c : vec) (radius : Q) (i : nat) : bool :=
  near_upper box c radius i || near_lower box c radius i.

(** The displacement of a flagged axis: minus the box length towards the
    lower image, plus the box length towards the upper image. *)
Definition axis_vector (box c : vec) (radius : Q) (i : nat) : vec :=
  setitem (np_zeros dim) i
    (if near_upper box c radius i then - item box i else item box i).

Fixpoint sublists {A : Type} (l : list A) : list (list A) :=
  match l with
  | [] => [[]]
  | x :: l' => sublists l' ++ map (cons x) (sublists l')
  end.

(** The sum of a non-empty list of vectors. *)
Fixpoint vector_sum (d : vec) (ds : list vec) : vec :=
  match ds with
  | [] => d
  | d' :: ds' => np_add d (vector_sum d' ds')
  end.

(** The centre translated by the sum of a subset of displacements; the
    empty subset leaves it where it is. *)
Definition translated (c : vec) (subset : list vec) : vec :=
  match subset with
  | [] => c
  | d :: ds => np_add c (vector_sum d ds)
  end.

(** ** Minimum-image distance as the specification words it *)

(** The centre moved by whole box lengths [k] along the axes. *)
Definition translate (box c : vec) (k : list Z) : vec :=
  np_add c (zip_with (fun n b => inject_Z n * b) k box).

(** Along a periodic axis the separation [d] is least, over all whole
    numbers of box lengths, at the whole number nearest to [d / b]. *)
Definition spec_min_image_delta (b d : Q) : Q :=
  if Qgtb b 0 then d - floor (d / b + (1 # 2)) * b else d.

Definition spec_min_image_dist2 (box c p : vec) : Q :=
  fold_right Qplus 0
    (map sq (zip_with spec_min_image_delta box (np_sub c p))).

(** [{i : minImageDistance(center, points[i]) <= r}] *)
Definition spec_brute_force (box : vec) (points : list vec) (center : vec)
  (r : Q) : list nat :=
  if Qle_bool 0 r then
    indices_where
      (fun p => Qle_bool (spec_min_image_dist2 box center p) (r * r)) points
  else [].

(** ** The wrapping expression on binary64 values

    The same expression as [wrap], evaluated with the rounding of IEEE
    double precision, NumPy's default [float64]. *)

Module Binary64.
Import PrimFloat.
Local Open Scope float_scope.

Definition two52 : float := 0x1p52.

(** The nearest integer, for an argument below [2^52] in magnitude. *)
Definition rint (x : float) : float :=
  if 0 <=? x then (x + two52) - two52 else (x - two52) + two52.

(** [np.floor]: values of magnitude [2^52] and more are integers already. *)
Definition floor (x : float) : float :=
  if abs x <? two52 then
    let t := rint x in if x <? t then t - 1 else t
  else x.

Definition np_sub : list float -> list float -> list float := zip_with sub.
Definition np_mul : list float -> list float -> list float := zip_with mul.
Definition np_div : list float -> list float -> list float := zip_with div.
Definition np_floor : list float -> list float := map floor.
Definition np_where (cond : list bool) (a : list float) (y : float)
  : list float :=
  zip_with (fun (c : bool) x => if c then x else y) cond a.

Definition periodic_axes (box : list float) : list bool :=
  map (fun b => 0 <? b) box.

Definition wrap (box x : list float) : list float :=
  np_sub x (np_where (periodic_axes box)
                     (np_mul (np_floor (np_div x box)) box) 0).

End Binary64.

(** ** The scenarios *)

(** The box, the points and the first query of the module's [__main__]. *)
Definition main_box : list length_or_inf := [Len 10; Len 10; Len 10].

Definition main_coords : ndarray :=
  mk_ndarray [5; 3]%nat
    [2; 2; 2;
     5; 5; 5;
     11 # 10; 11 # 10; 11 # 10;
     11; - (11); 11;
     21; 21; 3].

Definition main_center : ndarray := mk_ndarray [3%nat] [11; 2; 2].

(** [tree = PeriodicKDTree(box); tree.set_coords(coords);
    tree.search(center, radius); tree.get_indices()], with the object as
    the calls leave it. *)
Definition session (radius_indices : list vec -> vec -> Q -> option (list nat))
  (box0 : list length_or_inf) (coords center : ndarray) (radius : Q)
  : outcome (option (list nat)) * option PeriodicKDTree :=
  match init box0 10 with
  | Raise e => (Raise e, None)
  | Ok tree =>
      let (r, tree') :=
        (set_coords coords ;;
         search radius_indices center radius ;;
         get_indices)%method tree in
      (r, Some tree')
  end.

(** The object of [__main__] after each of its first three statements. *)
Definition fresh_tree : PeriodicKDTree :=
  mk_PeriodicKDTree (mk_KDTree 10 [] None) false [10; 10; 10] (Some []).

Definition built_tree : PeriodicKDTree :=
  snd (set_coords main_coords fresh_tree).

Definition searched_tree : PeriodicKDTree :=
  snd (search (scan_indices None) main_center (3 # 2) built_tree).

(** A centre of the wrong shape, and one far outside [-1e6, 1e6]. *)
Definition flat_center : ndarray := mk_ndarray [2%nat] [11; 2].

Definition far_center : ndarray := mk_ndarray [3%nat] [2000001; 2; 2].

(** Two points on either side of a periodic face, and a centre next to
    that face. *)
Definition face_coords : ndarray :=
  mk_ndarray [2; 3]%nat [1 # 2; 5; 5;  19 # 2; 5; 5].

Definition face_center : ndarray := mk_ndarray [3%nat] [1 # 5; 5; 5].

(** ** Notions used to state further properties *)

(** A length the constructor keeps: a number above zero. *)
Definition periodic_length (l : length_or_inf) : bool :=
  match l with
  | Len q => Qgtb q 0
  | Inf => false
  end.

(** An array holds as many elements as its shape says. *)
Definition well_formed (a : ndarray) : Prop :=
  List.length (flat a) = fold_right Nat.mul 1%nat (shape a).

(** Componentwise equality of vectors of rationals. *)
Definition vec_eq (a b : vec) : Prop := Forall2 Qeq a b.

Section Histories.

Variable radius_indices : list vec -> vec -> Q -> option (list nat).

(** The argument of the last [set_coords] of a history that returned
    normally, [acc] when there is none. *)
Fixpoint last_coords (calls : list call) (self : PeriodicKDTree)
  (acc : option ndarray) : option ndarray :=
  match calls with
  | [] => acc
  | c :: calls' =>
      let r := perform radius_indices c self in
      last_coords calls' (snd r)
        (match c, fst r with
         | call_set_coords coords, Ok _ => Some coords
         | _, _ => acc
         end)
  end.

(** Some call of [search] in the history returned normally. *)
Fixpoint search_completed (calls : list call) (self : PeriodicKDTree) : bool :=
  match calls with
  | [] => false
  | c :: calls' =>
      match c, fst (perform radius_indices c self) with
      | call_search _ _, Ok _ => true
      | _, _ => search_completed calls' (snd (perform radius_indices c self))
      end
  end.

End Histories.

(** * Properties *)

(** ** Index arrays: [np.sort] and [np.unique] *)

Lemma insert_sorted_In (x y : nat) (l : list nat) :
  In y (insert_sorted x l) <-> y = x \/ In y l.
Proof.
  induction l as [|z l IH]; simpl.
  - intuition.
  - destruct (x <=? z)%nat; simpl; rewrite ?IH; intuition.
Qed.

Lemma insert_sorted_sorted (x : nat) (l : list nat) :
  StronglySorted le l -> StronglySorted le (insert_sorted x l).
Proof.
  induction 1 as [|z l Hs IH Hz]; simpl.
  - repeat constructor.
  - destruct (x <=? z)%nat eqn:E.
    + apply Nat.leb_le in E. constructor.
      * now constructor.
      * constructor; [exact E|].
        rewrite Forall_forall in *. intros y Hy. specialize (Hz y Hy). lia.
    + apply Nat.leb_gt in E. constructor; [exact IH|].
      rewrite Forall_forall in *. intros y Hy.
      apply insert_sorted_In in Hy. destruct Hy as [->|Hy]; [lia|auto].
Qed.

Lemma np_sort_In (y : nat) (a : list nat) : In y (np_sort a) <-> In y a.
Proof.
  induction a as [|x a IH]; simpl; [tauto|].
  rewrite insert_sorted_In, IH. intuition.
Qed.

Lemma np_sort_sorted (a : list nat) : StronglySorted le (np_sort a).
Proof.
  induction a as [|x a IH]; simpl; [constructor|].
  now apply insert_sorted_sorted.
Qed.

Lemma np_sort_fixes_sorted (l : list nat) :
  StronglySorted le l -> np_sort l = l.
Proof.
  induction 1 as [|x l Hs IH Hx]; simpl; [reflexivity|].
  rewrite IH. destruct l as [|y l]; simpl; [reflexivity|].
  inversion Hx as [|? ? Hxy _]; subst.
  apply Nat.leb_le in Hxy. now rewrite Hxy.
Qed.

Lemma squeeze_In (y : nat) (l : list nat) : In y (squeeze l) <-> In y l.
Proof.
  induction l as [|x l IH]; [simpl; tauto|].
  destruct l as [|z l]; [simpl; tauto|].
  change (squeeze (x :: z :: l))
    with (if (x =? z)%nat then squeeze (z :: l) else x :: squeeze (z :: l)).
  destruct (x =? z)%nat eqn:E.
  - apply Nat.eqb_eq in E; subst. rewrite IH. simpl. tauto.
  - simpl In at 1. rewrite IH. simpl. tauto.
Qed.

Lemma squeeze_sorted (l : list nat) :
  StronglySorted le l -> StronglySorted lt (squeeze l).
Proof.
  induction 1 as [|x l Hs IH Hx]; [constructor|].
  destruct l as [|z l]; [repeat constructor|].
  change (squeeze (x :: z :: l))
    with (if (x =? z)%nat then squeeze (z :: l) else x :: squeeze (z :: l)).
  destruct (x =? z)%nat eqn:E; [exact IH|].
  apply Nat.eqb_neq in E. constructor; [exact IH|].
  rewrite Forall_forall in *. intros y Hy.
  apply (proj1 (squeeze_In y (z :: l))) in Hy.
  pose proof (Hx z (or_introl eq_refl)) as Hxz.
  destruct Hy as [<-|Hy]; [lia|].
  inversion Hs as [|? ? _ Hz]; subst.
  rewrite Forall_forall in Hz. specialize (Hz y Hy). lia.
Qed.

Lemma sorted_lt_le (l : list nat) :
  StronglySorted lt l -> StronglySorted le l.
Proof.
  induction 1 as [|x l Hs IH Hx]; constructor; [exact IH|].
  eapply Forall_impl; [|exact Hx]. intros; simpl in *; lia.
Qed.

Lemma sorted_lt_NoDup (l : list nat) : StronglySorted lt l -> NoDup l.
Proof.
  induction 1 as [|x l Hs IH Hx]; constructor; [|exact IH].
  intro Hin. rewrite Forall_forall in Hx. specialize (Hx x Hin). lia.
Qed.

Lemma np_unique_sorted (a : list nat) : StronglySorted lt (np_unique a).
Proof. apply squeeze_sorted, np_sort_sorted. Qed.

Lemma np_unique_In (y : nat) (a : list nat) : In y (np_unique a) <-> In y a.
Proof. unfold np_unique. now rewrite squeeze_In, np_sort_In. Qed.

Lemma np_sort_unique (a : list nat) : np_sort (np_unique a) = np_unique a.
Proof. apply np_sort_fixes_sorted, sorted_lt_le, np_unique_sorted. Qed.

(** ** Scalars and shapes *)

Lemma Qgtb_true (x y : Q) : Qgtb x y = true <-> y < x.
Proof.
  unfold Qgtb. rewrite negb_true_iff.
  split; intro H.
  - apply Qnot_le_lt. intro L. apply Qle_bool_iff in L. congruence.
  - destruct (Qle_bool x y) eqn:E; [|reflexivity].
    apply Qle_bool_iff in E. exfalso. apply (Qlt_not_le _ _ H E).
Qed.

Lemma Qgtb_false (x y : Q) : Qgtb x y = false <-> x <= y.
Proof.
  unfold Qgtb. rewrite negb_false_iff. apply Qle_bool_iff.
Qed.

Lemma shape_eqb_eq (s t : list nat) : shape_eqb s t = true <-> s = t.
Proof.
  unfold shape_eqb. destruct (list_eq_dec Nat.eq_dec s t); split; congruence.
Qed.

Lemma shape_eqb_neq (s t : list nat) : shape_eqb s t = false <-> s <> t.
Proof.
  unfold shape_eqb. destruct (list_eq_dec Nat.eq_dec s t); split; congruence.
Qed.

(** ** What [search] computes *)

Section ClassFacts.

Variable radius_indices : list vec -> vec -> Q -> option (list nat).

Lemma queried_data (radius : Q) (centers : list vec) (t : KDTree) :
  data (queried radius_indices radius centers t) = data t.
Proof.
  revert t. induction centers as [|c centers IH]; intro t; simpl.
  - reflexivity.
  - unfold queried in *. simpl. now rewrite IH.
Qed.

(** The loop keeps the first answer that is not [None] and nothing of the
    later ones. *)
Lemma search_loop (radius : Q) (centers : list vec) (self : PeriodicKDTree) :
  for_each centers (query_image radius_indices radius) self =
  (Ok tt,
   mk_PeriodicKDTree
     (queried radius_indices radius centers (kdt self)) (built self) (box self)
     (match _indices self with
      | Some a => Some a
      | None =>
          first_found
            (map (fun c => radius_indices (data (kdt self)) c radius) centers)
      end)).
Proof.
  revert self. induction centers as [|c centers IH]; intros [t bl bx idx].
  - simpl. now destruct idx.
  - cbn [for_each]. unfold bind at 1.
    destruct idx as [a|].
    + unfold query_image at 1. cbn. rewrite IH. cbn. reflexivity.
    + unfold query_image at 1. cbn. rewrite IH. cbn.
      destruct (radius_indices (data t) c radius) as [a|]; reflexivity.
Qed.

Lemma search_unbuilt (center : ndarray) (radius : Q) (self : PeriodicKDTree) :
  built self = false ->
  search radius_indices center radius self = (Raise NotBuiltError, self).
Proof.
  intro Hb. unfold search, bind, read. now rewrite Hb.
Qed.

Lemma search_bad_shape (center : ndarray) (radius : Q)
  (self : PeriodicKDTree) :
  built self = true -> shape center <> [dim] ->
  search radius_indices center radius self = (Raise ShapeError, self).
Proof.
  intros Hb Hs. apply shape_eqb_neq in Hs.
  unfold search, bind, read. now rewrite Hb, Hs.
Qed.

Lemma search_completes (center : ndarray) (radius : Q)
  (self : PeriodicKDTree) :
  built self = true -> shape center = [dim] ->
  search radius_indices center radius self =
  (Ok tt,
   mk_PeriodicKDTree
     (queried radius_indices radius (find_centers (box self) (flat center) radius)
              (kdt self))
     true (box self)
     (option_map (fun a => np_sort (np_unique a))
        (first_found
           (image_answers radius_indices (data (kdt self)) (box self)
                          (flat center) radius)))).
Proof.
  intros Hb Hs. apply shape_eqb_eq in Hs.
  destruct self as [t bl bx idx]. cbn [built] in Hb. subst bl.
  unfold search. unfold bind at 1. unfold read at 1.
  cbn [built negb]. rewrite Hs. cbn [negb].
  unfold bind at 1. unfold assign at 1.
  unfold bind at 1. unfold read at 1.
  cbn [with_indices kdt built box _indices].
  unfold bind at 1. rewrite search_loop.
  cbn [kdt built box _indices]. unfold image_answers.
  destruct (first_found _); reflexivity.
Qed.

Lemma search_cases (center : ndarray) (radius : Q) (self : PeriodicKDTree) :
  search radius_indices center radius self = (Raise NotBuiltError, self) \/
  search radius_indices center radius self = (Raise ShapeError, self) \/
  exists self', search radius_indices center radius self = (Ok tt, self').
Proof.
  destruct (built self) eqn:Hb.
  - destruct (list_eq_dec Nat.eq_dec (shape center) [dim]) as [Hs|Hs].
    + right; right. eexists. now apply search_completes.
    + right; left. now apply search_bad_shape.
  - left. now apply search_unbuilt.
Qed.

Lemma search_keeps_built (center : ndarray) (radius : Q)
  (self : PeriodicKDTree) :
  built (snd (search radius_indices center radius self)) = built self.
Proof.
  destruct (built self) eqn:Hb.
  - destruct (list_eq_dec Nat.eq_dec (shape center) [dim]) as [Hs|Hs].
    + now rewrite search_completes.
    + now rewrite search_bad_shape.
  - now rewrite search_unbuilt.
Qed.

End ClassFacts.

(** ** What [set_coords] does to the object *)

Lemma set_coords_cases (coords : ndarray) (self : PeriodicKDTree) :
  (exists e, set_coords coords self = (Raise e, self)) \/
  set_coords coords self =
  (Ok tt,
   mk_PeriodicKDTree
     (KDTree_set_data (wrapped_data (box self) coords) (kdt self))
     true (box self) (_indices self)).
Proof.
  unfold set_coords.
  destruct (range_guard coords) as [[|]|e].
  - left. now exists RangeError.
  - destruct (bad_coords_shape coords).
    + left. now exists ShapeError_coords.
    + right. destruct self; reflexivity.
  - left. now exists e.
Qed.

Lemma set_coords_raise_unchanged (coords : ndarray) (self : PeriodicKDTree)
  (e : exn) :
  fst (set_coords coords self) = Raise e -> snd (set_coords coords self) = self.
Proof.
  destruct (set_coords_cases coords self) as [[e' H]|H]; rewrite H; cbn.
  - reflexivity.
  - discriminate.
Qed.

Lemma set_coords_ok_built (coords : ndarray) (self : PeriodicKDTree) (u : unit) :
  fst (set_coords coords self) = Ok u ->
  built (snd (set_coords coords self)) = true.
Proof.
  destruct (set_coords_cases coords self) as [[e' H]|H]; rewrite H; cbn.
  - discriminate.
  - reflexivity.
Qed.

(** ** The flag [built] along a history *)

Lemma built_after radius_indices (calls : list call) (self : PeriodicKDTree) :
  built (after radius_indices calls self) =
  built self || point_set_built radius_indices calls self.
Proof.
  revert self. induction calls as [|c calls IH]; intro self.
  - cbn. now rewrite orb_false_r.
  - cbn [after point_set_built]. rewrite IH.
    destruct c as [coords|center radius]; cbn [perform].
    + destruct (fst (set_coords coords self)) as [u|e] eqn:E.
      * rewrite (set_coords_ok_built _ _ _ E). cbn. now rewrite orb_true_r.
      * now rewrite (set_coords_raise_unchanged _ _ _ E).
    + rewrite search_keeps_built.
      now destruct (fst (search radius_indices center radius self)).
Qed.

Lemma init_unbuilt (box0 : list length_or_inf) (bucket : nat)
  (tree : PeriodicKDTree) :
  init box0 bucket = Ok tree -> built tree = false /\ _indices tree = Some [].
Proof.
  unfold init. destruct (negb _); [discriminate|].
  destruct (negb _); [discriminate|].
  intros [= <-]. split; reflexivity.
Qed.

(** * The claims *)

(** ** The minimum-image distance is the least over the translations *)

Lemma spec_min_image_delta_least (b d : Q) (n : Z) :
  0 < b -> sq (spec_min_image_delta b d) <= sq (d - inject_Z n * b).
Proof.
  intro Hb. unfold spec_min_image_delta, floor, sq.
  rewrite (proj2 (Qgtb_true b 0) Hb).
  assert (Hd : d == (d / b) * b).
  { field. intro E. rewrite E in Hb. apply (Qlt_irrefl _ Hb). }
  pose proof (Qfloor_le (d / b + (1 # 2))) as Hlo.
  pose proof (Qlt_floor (d / b + (1 # 2))) as Hhi.
  rewrite inject_Z_plus in Hhi. change (inject_Z 1) with 1 in Hhi.
  remember (d / b) as q eqn:Eq. clear Eq.
  remember (Qfloor (q + (1 # 2))) as m eqn:Em. clear Em.
  assert (Hn : inject_Z n <= inject_Z m - 1 \/ inject_Z n == inject_Z m \/
               inject_Z m + 1 <= inject_Z n).
  { destruct (Z.lt_trichotomy n m) as [H|[H|H]].
    - left. assert (H' : (n <= m + -1)%Z) by lia.
      rewrite Zle_Qle, inject_Z_plus in H'.
      change (inject_Z (-1)) with (- (1)) in H'. lra.
    - right; left. subst n. reflexivity.
    - right; right. assert (H' : (m + 1 <= n)%Z) by lia.
      rewrite Zle_Qle, inject_Z_plus in H'.
      change (inject_Z 1) with 1 in H'. lra. }
  remember (inject_Z n) as N eqn:EN. clear EN.
  remember (inject_Z m) as f eqn:Ef. clear Ef.
  rewrite Hd.
  assert (A : (q - f) * (q - f) <= (q - N) * (q - N)).
  { destruct Hn as [H|[H|H]]; [nra|rewrite H; lra|nra]. }
  assert (B : 0 <= b * b) by nra.
  assert (E1 : (q * b - f * b) * (q * b - f * b)
               == (b * b) * ((q - f) * (q - f))) by ring.
  assert (E2 : (q * b - N * b) * (q * b - N * b)
               == (b * b) * ((q - N) * (q - N))) by ring.
  rewrite E1, E2. rewrite !(Qmult_comm (b * b)).
  apply Qmult_le_compat_r; assumption.
Qed.

Lemma min_image_axis_least (b ci pi : Q) (n : Z) :
  0 <= b ->
  sq (spec_min_image_delta b (ci - pi)) <= sq (ci + inject_Z n * b - pi).
Proof.
  intro Hb. destruct (Qgtb b 0) eqn:E.
  - apply Qgtb_true in E.
    pose proof (spec_min_image_delta_least b (ci - pi) (- n) E) as H.
    rewrite inject_Z_opp in H. unfold sq in *.
    assert (Eq : ci - pi - - inject_Z n * b == ci + inject_Z n * b - pi)
      by ring.
    now rewrite Eq in H.
  - unfold spec_min_image_delta. rewrite E. apply Qgtb_false in E.
    assert (Hb0 : b == 0) by lra.
    assert (Eq : ci + inject_Z n * b - pi == ci - pi)
      by (rewrite Hb0; ring).
    unfold sq. rewrite Eq. apply Qle_refl.
Qed.

Lemma min_image_axis_attained (b ci pi : Q) :
  exists n : Z,
    sq (ci + inject_Z n * b - pi) == sq (spec_min_image_delta b (ci - pi)).
Proof.
  unfold spec_min_image_delta, floor. destruct (Qgtb b 0).
  - exists (- Qfloor ((ci - pi) / b + (1 # 2)))%Z.
    rewrite inject_Z_opp. unfold sq. ring.
  - exists 0%Z. change (inject_Z 0) with 0. unfold sq. ring.
Qed.

(** No translation of the centre by whole box lengths brings it closer to
    the point than the minimum-image distance. *)
Lemma spec_min_image_dist2_least (box c p : vec) (k : list Z) :
  Forall (fun b => 0 <= b) box ->
  List.length c = List.length box ->
  List.length p = List.length box ->
  List.length k = List.length box ->
  spec_min_image_dist2 box c p <= dist2 (translate box c k) p.
Proof.
  unfold spec_min_image_dist2, dist2, translate, np_sub, np_add.
  intro Hbox. revert c p k.
  induction Hbox as [|b box Hb Hbox IH]; intros [|ci c] [|pi p] [|n k];
    cbn; intros Hc Hp Hk; try discriminate; try apply Qle_refl.
  apply Qplus_le_compat.
  - now apply min_image_axis_least.
  - apply IH; congruence.
Qed.

(** Some translation attains it. *)
Lemma spec_min_image_dist2_attained (box c p : vec) :
  List.length c = List.length box ->
  List.length p = List.length box ->
  exists k : list Z,
    List.length k = List.length box /\
    dist2 (translate box c k) p == spec_min_image_dist2 box c p.
Proof.
  unfold spec_min_image_dist2, dist2, translate, np_sub, np_add.
  revert c p.
  induction box as [|b box IH]; intros [|ci c] [|pi p]; cbn;
    intros Hc Hp; try discriminate.
  - exists []. split; reflexivity.
  - destruct (IH c p) as (k & Hk & Hsum); [congruence|congruence|].
    destruct (min_image_axis_attained b ci pi) as [n Hn].
    exists (n :: k). cbn. split; [congruence|].
    now rewrite Hn, Hsum.
Qed.

(** ** C1 and C2: the images after the first *)

(** C1, at a centre next to a periodic face.  The two image centres are
    queried and answer [[0]] and [[1]]; the union asked for is [[0; 1]];
    [search] leaves [[0]], the answer for the first image alone, while the
    answer for the second is still in the tree. *)
Theorem search_keeps_first_answer_only (when_empty : option (list nat)) :
  let tree_query := scan_indices when_empty in
  let points := wrapped_data [10; 10; 10] face_coords in
  let answers :=
    image_answers tree_query points [10; 10; 10] (flat face_center) 1 in
  let run := session tree_query main_box face_coords face_center 1 in
  answers = [Some [0%nat]; Some [1%nat]] /\
  spec_union answers = [0; 1]%nat /\
  fst run = Ok (Some [0%nat]) /\
  option_map (fun self => found (kdt self)) (snd run) = Some (Some [1%nat]).
Proof.
  repeat split; vm_compute; reflexivity.
Qed.

(** C2, at the same centre with radius 1, a fifth of half the box length.
    The point of index 1 is at distance 0.7 of the centre through the
    face, so the minimum-image set is [[0; 1]]; [search] leaves [[0]]. *)
Theorem search_misses_minimum_image (when_empty : option (list nat)) :
  let box := [10; 10; 10] in
  let points := rows 2 dim (flat face_coords) in
  Qle_bool 1 (10 / 2) = true /\
  Qred (dist2 (translate box (flat face_center) [1; 0; 0]%Z)
              (nth 1 points []))
  = 49 # 100 /\
  spec_brute_force box points (flat face_center) 1 = [0; 1]%nat /\
  fst (session (scan_indices when_empty) main_box face_coords face_center 1)
  = Ok (Some [0%nat]).
Proof.
  repeat split; vm_compute; reflexivity.
Qed.

(** ** C3: the images of a centre *)

(** One pass of the loop over the axes appends the displacement of the
    axis when the axis is flagged, and nothing otherwise. *)
Lemma axis_displacement_step (box c extents : vec) (radius : Q)
  (ds : list vec) (i : nat) :
  item extents i = extent (item box i) radius ->
  axis_displacement box c extents ds i =
  ds ++ (if flagged box c radius i then [axis_vector box c radius i] else []).
Proof.
  intro He. unfold axis_displacement, flagged, axis_vector, near_upper,
    near_lower. rewrite He.
  destruct (Qgtb (extent (item box i) radius) 0); cbn [andb orb].
  - destruct (Qltb (item box i - item c i) (extent (item box i) radius));
      cbn [orb]; [reflexivity|].
    destruct (Qltb (item c i) (extent (item box i) radius));
      [reflexivity|now rewrite app_nil_r].
  - now rewrite app_nil_r.
Qed.

Lemma axis_displacements_flagged (box c : vec) (radius : Q) :
  List.length box = dim ->
  axis_displacements box c radius =
  map (axis_vector box c radius) (filter (flagged box c radius) (seq 0 dim)).
Proof.
  intro Hlen.
  destruct box as [|b0 [|b1 [|b2 [|b3 box]]]]; try discriminate Hlen.
  unfold axis_displacements. cbn [seq dim fold_left map].
  rewrite !(axis_displacement_step _ _ _ radius) by reflexivity.
  cbn [filter].
  destruct (flagged [b0; b1; b2] c radius 0),
           (flagged [b0; b1; b2] c radius 1),
           (flagged [b0; b1; b2] c radius 2); reflexivity.
Qed.

Lemma flagged_axes_length (box c : vec) (radius : Q) :
  (List.length (filter (flagged box c radius) (seq 0 dim)) <= 3)%nat.
Proof.
  cbn [seq dim filter].
  destruct (flagged box c radius 0), (flagged box c radius 1),
           (flagged box c radius 2); cbn; lia.
Qed.

(** Moves the head of the left list to where it stands in the right. *)
Ltac place_head :=
  lazymatch goal with
  | |- Permutation [] [] => apply perm_nil
  | |- Permutation (?a :: ?l) ?r =>
      let rec go pre post :=
        lazymatch post with
        | a :: ?post' => apply (Permutation_cons_app pre post' a); cbn [app]
        | ?x :: ?post' => go constr:(pre ++ [x]) post'
        end in
      go constr:(@nil vec) r
  end.

(** The nested loops turn at most three displacements into the sums of
    all their non-empty subsets. *)
Lemma images_of_displacements (c : vec) (ds : list vec) :
  (List.length ds <= 3)%nat ->
  List.length (c :: map (fun d => np_add c d) (combine_displacements ds))
  = (2 ^ List.length ds)%nat /\
  Permutation (c :: map (fun d => np_add c d) (combine_displacements ds))
              (map (translated c) (sublists ds)).
Proof.
  intro Hlen.
  destruct ds as [|d0 [|d1 [|d2 [|d3 ds]]]]; cbn in Hlen; try lia;
    (split; [reflexivity|]);
    cbn [combine_displacements List.length Nat.ltb Nat.leb range_down range
         seq rev app fold_left Nat.add Nat.sub nth_vec nth map sublists
         translated vector_sum];
    repeat place_head.
Qed.

(** C3.  For a box of three lengths, [find_centers] starts from the
    wrapped centre and returns it together with its translation by the
    sum of every non-empty subset of the displacements of the flagged
    axes: with [k] axes flagged these are [2 ^ k] centres, between 1 and
    8. *)
Theorem find_centers_images (box center : vec) (radius : Q) :
  List.length box = dim ->
  List.length center = dim ->
  let wrapped_center := wrap box center in
  let axes := filter (flagged box wrapped_center radius) (seq 0 dim) in
  let k := List.length axes in
  let displacements := map (axis_vector box wrapped_center radius) axes in
  (k <= 3)%nat /\
  List.length (find_centers box center radius) = (2 ^ k)%nat /\
  (1 <= List.length (find_centers box center radius) <= 8)%nat /\
  hd [] (find_centers box center radius) = wrapped_center /\
  Permutation (find_centers box center radius)
              (map (translated wrapped_center) (sublists displacements)).
Proof.
  intros Hbox _ wrapped_center axes k displacements.
  assert (Hk : (k <= 3)%nat) by apply flagged_axes_length.
  assert (Hds : List.length displacements = k)
    by (unfold displacements; apply length_map).
  assert (Hfc : find_centers box center radius =
                wrapped_center
                  :: map (fun d => np_add wrapped_center d)
                         (combine_displacements displacements)).
  { unfold find_centers. fold wrapped_center.
    rewrite (axis_displacements_flagged _ _ _ Hbox). reflexivity. }
  destruct (images_of_displacements wrapped_center displacements)
    as [Hcount Hperm]; [lia|].
  rewrite Hds in Hcount. rewrite <- Hfc in Hcount, Hperm.
  split; [exact Hk|]. split; [exact Hcount|].
  split; [|split; [now rewrite Hfc|exact Hperm]].
  rewrite Hcount. clear - Hk. destruct k as [|[|[|[|k]]]]; cbn; lia.
Qed.

Lemma find_centers_images_witness :
  List.length (find_centers [10; 10; 10] [99 # 10; 1 # 10; 5] (3 # 2))
  = 4%nat.
Proof.
  pose proof (find_centers_images [10; 10; 10] [99 # 10; 1 # 10; 5] (3 # 2)
                eq_refl eq_refl) as H.
  cbv zeta in H. destruct H as (_ & Hcount & _).
  rewrite Hcount. vm_compute. reflexivity.
Defined.

(** ** C4: the scenario of [__main__] *)

(** C4 (as the code has it).  With the box and the five points of
    [__main__], [search([11, 2, 2], 1.5)] leaves the indices 0, 2 and 4:
    beside the point [[2, 2, 2]] at distance 1 of the wrapped centre
    [[1, 2, 2]], the points [[1.1, 1.1, 1.1]] and [[21, 21, 3]] (wrapped to
    [[1, 1, 3]]) lie at squared distances 1.63 and 2, both below 2.25. *)
Theorem main_scenario_result (when_empty : option (list nat)) :
  fst (session (scan_indices when_empty) main_box main_coords main_center
               (3 # 2))
  = Ok (Some [0; 2; 4]%nat) /\
  map (fun p => Qred (dist2 p [1; 2; 2]))
      (wrapped_data [10; 10; 10] main_coords)
  = [1; 34; 163 # 100; 50; 2].
Proof.
  split.
  - vm_compute. reflexivity.
  - vm_compute. reflexivity.
Qed.

(** C4, the claim as stated fails: the result is not the index 0 alone,
    whichever way the tree reports an empty answer. *)
Lemma main_scenario_not_only_point_0 :
  fst (session (scan_indices None) main_box main_coords main_center (3 # 2))
  <> Ok (Some [0%nat]) /\
  fst (session (scan_indices (Some [])) main_box main_coords main_center
               (3 # 2))
  <> Ok (Some [0%nat]).
Proof.
  split; vm_compute; discriminate.
Qed.

(** ** C5: [set_coords] on a built object *)

(** C5 (as the code has it).  A [set_coords] that returns normally marks
    the object built and replaces the points held by the tree with the
    wrapped new coordinates; the stored result is not touched, so
    [get_indices] returns what it returned before the call. *)
Theorem set_coords_keeps_result (coords : ndarray)
  (self self' : PeriodicKDTree) :
  set_coords coords self = (Ok tt, self') ->
  built self' = true /\
  data (kdt self') = wrapped_data (box self) coords /\
  fst (get_indices self') = fst (get_indices self).
Proof.
  intro Hrun.
  destruct (set_coords_cases coords self) as [[e H]|H];
    rewrite H in Hrun; [discriminate Hrun|].
  injection Hrun as <-. repeat split.
Qed.

Lemma set_coords_keeps_result_witness :
  data (kdt (snd (set_coords face_coords searched_tree)))
  = [[1 # 2; 5; 5]; [19 # 2; 5; 5]] /\
  fst (get_indices (snd (set_coords face_coords searched_tree)))
  = Ok (Some [0; 2; 4]%nat).
Proof.
  destruct (set_coords_keeps_result face_coords searched_tree
              (snd (set_coords face_coords searched_tree)))
    as (_ & Hdata & Hget).
  - vm_compute. reflexivity.
  - split.
    + rewrite Hdata. vm_compute. reflexivity.
    + rewrite Hget. vm_compute. reflexivity.
Defined.

(** C5, the claim as stated fails: after the five points of [__main__]
    are replaced by two other points, [get_indices] still returns the
    indices 0, 2 and 4 found among the old ones. *)
Lemma rebuild_returns_old_result :
  fst (get_indices searched_tree) = Ok (Some [0; 2; 4]%nat) /\
  fst ((set_coords face_coords ;; get_indices)%method searched_tree)
  = Ok (Some [0; 2; 4]%nat) /\
  List.length (data (kdt (snd (set_coords face_coords searched_tree))))
  = 2%nat.
Proof.
  repeat split; vm_compute; reflexivity.
Qed.

(** ** C6: the stored result is ascending and free of repeats *)

(** C6.  Whenever [search] returns normally, an index array it leaves in
    [_indices] (what [get_indices] then returns) is strictly ascending:
    sorted, with no index twice.  This holds for every behaviour of the
    external tree. *)
Theorem search_result_sorted_unique
  (radius_indices : list vec -> vec -> Q -> option (list nat))
  (center : ndarray) (radius : Q) (self self' : PeriodicKDTree)
  (result : list nat) :
  search radius_indices center radius self = (Ok tt, self') ->
  fst (get_indices self') = Ok (Some result) ->
  StronglySorted lt result /\ NoDup result.
Proof.
  intros Hrun Hget.
  destruct (built self) eqn:Hb.
  - destruct (list_eq_dec Nat.eq_dec (shape center) [dim]) as [Hs|Hs].
    + rewrite (search_completes _ _ _ _ Hb Hs) in Hrun.
      remember (first_found _) as answer eqn:E in Hrun. clear E.
      injection Hrun as <-. cbn in Hget.
      destruct answer as [a|]; cbn in Hget; [|discriminate Hget].
      injection Hget as <-. rewrite np_sort_unique.
      split; [|apply sorted_lt_NoDup]; apply np_unique_sorted.
    + rewrite (search_bad_shape _ _ _ _ Hb Hs) in Hrun. discriminate Hrun.
  - rewrite (search_unbuilt _ _ _ _ Hb) in Hrun. discriminate Hrun.
Qed.

Lemma search_result_sorted_unique_witness :
  StronglySorted lt [0; 2; 4]%nat /\ NoDup [0; 2; 4]%nat.
Proof.
  apply (search_result_sorted_unique (scan_indices None) main_center (3 # 2)
           built_tree searched_tree).
  - vm_compute. reflexivity.
  - vm_compute. reflexivity.
Defined.

(** ** C7: the guard on the magnitude of coordinates *)

Lemma Qmin'_le_l (x y : Q) : Qmin' x y <= x.
Proof.
  unfold Qmin'. destruct (Qle_bool x y) eqn:E.
  - apply Qle_refl.
  - apply Qlt_le_weak, Qgtb_true. unfold Qgtb. now rewrite E.
Qed.

Lemma Qmin'_le_r (x y : Q) : Qmin' x y <= y.
Proof.
  unfold Qmin'. destruct (Qle_bool x y) eqn:E.
  - now apply Qle_bool_iff.
  - apply Qle_refl.
Qed.

Lemma Qmax'_ge_l (x y : Q) : x <= Qmax' x y.
Proof.
  unfold Qmax'. destruct (Qle_bool x y) eqn:E.
  - now apply Qle_bool_iff.
  - apply Qle_refl.
Qed.

Lemma Qmax'_ge_r (x y : Q) : y <= Qmax' x y.
Proof.
  unfold Qmax'. destruct (Qle_bool x y) eqn:E.
  - apply Qle_refl.
  - apply Qlt_le_weak, Qgtb_true. unfold Qgtb. now rewrite E.
Qed.

Lemma fold_min_spec (l : list Q) (x : Q) :
  In (fold_left Qmin' l x) (x :: l) /\
  forall y, In y (x :: l) -> fold_left Qmin' l x <= y.
Proof.
  revert x. induction l as [|z l IH]; intro x; cbn [fold_left].
  - split; [now left|]. intros y [<-|[]]. apply Qle_refl.
  - destruct (IH (Qmin' x z)) as [Hin Hle]. split.
    + destruct Hin as [Hin|Hin]; [|now right; right].
      rewrite <- Hin. unfold Qmin'.
      destruct (Qle_bool x z); [now left|now right; left].
    + intros y [<-|[<-|Hy]].
      * eapply Qle_trans; [apply Hle; now left|apply Qmin'_le_l].
      * eapply Qle_trans; [apply Hle; now left|apply Qmin'_le_r].
      * apply Hle. now right.
Qed.

Lemma fold_max_spec (l : list Q) (x : Q) :
  In (fold_left Qmax' l x) (x :: l) /\
  forall y, In y (x :: l) -> y <= fold_left Qmax' l x.
Proof.
  revert x. induction l as [|z l IH]; intro x; cbn [fold_left].
  - split; [now left|]. intros y [<-|[]]. apply Qle_refl.
  - destruct (IH (Qmax' x z)) as [Hin Hle]. split.
    + destruct Hin as [Hin|Hin]; [|now right; right].
      rewrite <- Hin. unfold Qmax'.
      destruct (Qle_bool x z); [now right; left|now left].
    + intros y [<-|[<-|Hy]].
      * eapply Qle_trans; [apply Qmax'_ge_l|apply Hle; now left].
      * eapply Qle_trans; [apply Qmax'_ge_r|apply Hle; now left].
      * apply Hle. now right.
Qed.

(** The guard answers [True] exactly for an array with an element at or
    beyond either bound. *)
Lemma range_guard_true_iff (coords : ndarray) :
  range_guard coords = Ok true <->
  exists x, In x (flat coords) /\ outside_bound x.
Proof.
  unfold range_guard, np_min, np_max, outside_bound.
  destruct (flat coords) as [|x0 l].
  - split; [discriminate|]. intros (x & [] & _).
  - destruct (fold_min_spec l x0) as [Hmin_in Hmin].
    destruct (fold_max_spec l x0) as [Hmax_in Hmax].
    unfold out_of_range_low, out_of_range_high, Qgeb.
    destruct (Qle_bool (fold_left Qmin' l x0) (- (1000000))) eqn:Elo.
    + split; [|reflexivity]. intros _.
      exists (fold_left Qmin' l x0). split; [exact Hmin_in|].
      left. now apply Qle_bool_iff.
    + destruct (Qle_bool 1000000 (fold_left Qmax' l x0)) eqn:Ehi.
      * split; [|reflexivity]. intros _.
        exists (fold_left Qmax' l x0). split; [exact Hmax_in|].
        right. now apply Qle_bool_iff.
      * split; [discriminate|]. intros (x & Hx & [Hlow|Hhigh]).
        -- assert (H : Qle_bool (fold_left Qmin' l x0) (- (1000000)) = true).
           { apply Qle_bool_iff. eapply Qle_trans; [apply Hmin, Hx|exact Hlow]. }
           congruence.
        -- assert (H : Qle_bool 1000000 (fold_left Qmax' l x0) = true).
           { apply Qle_bool_iff. eapply Qle_trans; [exact Hhigh|apply Hmax, Hx]. }
           congruence.
Qed.

Lemma range_guard_raises (coords : ndarray) (e : exn) :
  range_guard coords = Raise e -> e = ZeroSizeError.
Proof.
  unfold range_guard.
  destruct (np_min (flat coords)); [|congruence].
  destruct (out_of_range_low q); [discriminate|].
  destruct (np_max (flat coords)); [discriminate|congruence].
Qed.

Lemma set_coords_range_error (coords : ndarray) (self : PeriodicKDTree) :
  fst (set_coords coords self) = Raise RangeError <->
  range_guard coords = Ok true.
Proof.
  unfold set_coords.
  destruct (range_guard coords) as [[|]|e] eqn:E; cbn.
  - tauto.
  - destruct (bad_coords_shape coords); cbn; split; discriminate.
  - apply range_guard_raises in E. subst e. split; discriminate.
Qed.

(** C7 (as the code has it).  For an array of numbers (an array holding
    a NaN is no value of [ndarray] and is left out), [set_coords] raises
    "Points should lie between -1e6 and 1e6" exactly when some coordinate
    is at most -1e6 or at least 1e6, and then leaves the object untouched,
    nothing wrapped and nothing handed to the tree; [search] has no such
    guard and never raises that exception, whatever the centre. *)
Theorem range_guard_in_set_coords_only
  (radius_indices : list vec -> vec -> Q -> option (list nat))
  (coords center : ndarray) (radius : Q) (self : PeriodicKDTree) :
  (fst (set_coords coords self) = Raise RangeError <->
   exists x, In x (flat coords) /\ outside_bound x) /\
  (fst (set_coords coords self) = Raise RangeError ->
   snd (set_coords coords self) = self) /\
  fst (search radius_indices center radius self) <> Raise RangeError.
Proof.
  split; [|split].
  - rewrite set_coords_range_error. apply range_guard_true_iff.
  - apply set_coords_raise_unchanged.
  - destruct (search_cases radius_indices center radius self)
      as [H|[H|[self' H]]]; rewrite H; discriminate.
Qed.

(** C7, the claim as stated fails for query centres: a centre whose
    first coordinate is 2000001 is wrapped and searched like any other. *)
Lemma far_center_is_searched :
  1000000 < item (flat far_center) 0 /\
  fst (search (scan_indices None) far_center (3 # 2) built_tree) = Ok tt /\
  fst (get_indices
         (snd (search (scan_indices None) far_center (3 # 2) built_tree)))
  = Ok (Some [0; 2; 4]%nat).
Proof.
  repeat split; vm_compute; reflexivity.
Qed.

(** ** C8: when [search] raises *)

(** C8.  On an object made by the constructor and used through any
    history of calls, [search] raises "No point set specified" exactly
    when no [set_coords] of the history has returned normally; once a
    point set is built it raises "Expected a (3,) NumPy array" exactly when
    the shape of the centre is not [(3,)], and otherwise returns
    normally. *)
Theorem search_raises_iff
  (radius_indices : list vec -> vec -> Q -> option (list nat))
  (box0 : list length_or_inf) (bucket : nat) (tree : PeriodicKDTree)
  (calls : list call) (center : ndarray) (radius : Q) :
  init box0 bucket = Ok tree ->
  let self := after radius_indices calls tree in
  let raised := fst (search radius_indices center radius self) in
  (raised = Raise NotBuiltError <->
   point_set_built radius_indices calls tree = false) /\
  (point_set_built radius_indices calls tree = true ->
   (raised = Raise ShapeError <-> shape center <> [dim]) /\
   (shape center = [dim] -> raised = Ok tt)).
Proof.
  intros Hinit self raised.
  destruct (init_unbuilt _ _ _ Hinit) as [Hfresh _].
  assert (Hb : built self = point_set_built radius_indices calls tree).
  { subst self. now rewrite built_after, Hfresh. }
  subst raised.
  destruct (point_set_built radius_indices calls tree) eqn:Hp.
  - destruct (list_eq_dec Nat.eq_dec (shape center) [dim]) as [Hs|Hs].
    + rewrite (search_completes _ _ _ _ Hb Hs). cbn [fst].
      repeat split; intros; try discriminate; try contradiction; auto.
    + rewrite (search_bad_shape _ _ _ _ Hb Hs). cbn [fst].
      repeat split; intros; try discriminate; try contradiction; auto.
  - rewrite (search_unbuilt _ _ _ _ Hb). cbn [fst].
    repeat split; intros; try discriminate; auto.
Qed.

Lemma search_raises_iff_witness :
  fst (search (scan_indices None) main_center (3 # 2)
         (after (scan_indices None) [call_set_coords main_coords] fresh_tree))
  = Ok tt.
Proof.
  apply (search_raises_iff (scan_indices None) main_box 10 fresh_tree
           [call_set_coords main_coords] main_center (3 # 2)).
  - vm_compute. reflexivity.
  - vm_compute. reflexivity.
  - vm_compute. reflexivity.
Defined.

(** ** C9: wrapping twice *)

Lemma wrap_pointwise (box x : vec) :
  wrap box x = zip_with (fun xi bi => wrap_coordinate bi xi) x box.
Proof.
  unfold wrap, np_sub, np_where, np_mul, np_floor, np_div, periodic_axes.
  revert box. induction x as [|xi x IH]; intros [|bi box]; cbn;
    try reflexivity.
  now rewrite IH.
Qed.

Lemma Qfloor_unit (q : Q) : 0 <= q -> q < 1 -> Qfloor q = 0%Z.
Proof.
  intros H0 H1.
  pose proof (Qfloor_resp_le _ _ H0) as Hlo.
  change (Qfloor 0) with 0%Z in Hlo.
  pose proof (Qfloor_le q) as Hle.
  assert (Hhi : (Qfloor q < 1)%Z).
  { rewrite Zlt_Qlt. eapply Qle_lt_trans; [exact Hle|exact H1]. }
  lia.
Qed.

Lemma wrap_coordinate_range (b x : Q) :
  0 < b -> 0 <= wrap_coordinate b x /\ wrap_coordinate b x < b.
Proof.
  intro Hb. unfold wrap_coordinate, floor.
  rewrite (proj2 (Qgtb_true b 0) Hb).
  pose proof (Qfloor_le (x / b)) as Hlo.
  pose proof (Qlt_floor (x / b)) as Hhi.
  rewrite inject_Z_plus in Hhi.
  assert (Hx : x == (x / b) * b).
  { field. intro E. rewrite E in Hb. apply (Qlt_irrefl _ Hb). }
  set (q := x / b) in *. set (f := inject_Z (Qfloor q)) in *.
  change (inject_Z 1) with 1 in Hhi.
  split.
  - assert (H : f * b <= q * b) by (apply Qmult_le_compat_r; [exact Hlo|lra]).
    lra.
  - assert (H : q * b < (f + 1) * b) by (apply Qmult_lt_compat_r; assumption).
    lra.
Qed.

Lemma wrap_coordinate_fixed (b w : Q) :
  0 < b -> 0 <= w -> w < b -> wrap_coordinate b w == w.
Proof.
  intros Hb H0 H1. unfold wrap_coordinate, floor.
  rewrite (proj2 (Qgtb_true b 0) Hb).
  assert (Hq0 : 0 <= w / b).
  { apply Qle_shift_div_l; [exact Hb|]. lra. }
  assert (Hq1 : w / b < 1).
  { apply Qlt_shift_div_r; [exact Hb|]. lra. }
  rewrite (Qfloor_unit _ Hq0 Hq1). change (inject_Z 0) with 0. lra.
Qed.

Lemma wrap_coordinate_idempotent (b x : Q) :
  wrap_coordinate b (wrap_coordinate b x) == wrap_coordinate b x.
Proof.
  destruct (Qgtb b 0) eqn:Hb.
  - apply Qgtb_true in Hb.
    destruct (wrap_coordinate_range b x Hb) as [H0 H1].
    now apply wrap_coordinate_fixed.
  - unfold wrap_coordinate. rewrite Hb. lra.
Qed.

Lemma wrap_coordinate_aperiodic (b x : Q) :
  b == 0 -> wrap_coordinate b x == x.
Proof.
  intro Hb. unfold wrap_coordinate.
  assert (E : Qgtb b 0 = false) by (apply Qgtb_false; lra).
  rewrite E. lra.
Qed.

Lemma wrap_twice (box p : vec) :
  Forall2 Qeq (wrap box (wrap box p)) (wrap box p).
Proof.
  rewrite !wrap_pointwise. revert box.
  induction p as [|x p IH]; intros [|b box]; cbn; try constructor.
  - apply wrap_coordinate_idempotent.
  - apply IH.
Qed.

Lemma wrap_item (box p : vec) (i : nat) :
  (i < List.length box)%nat -> (i < List.length p)%nat ->
  item (wrap box p) i = wrap_coordinate (item box i) (item p i).
Proof.
  rewrite wrap_pointwise. unfold item. revert box i.
  induction p as [|x p IH]; intros [|b box] [|i]; cbn; try lia;
    try reflexivity.
  intros Hb Hp. apply IH; lia.
Qed.

(** What the wrapping would do were its arithmetic exact: for a valid box
    and a point of three coordinates, wrapping what is already wrapped
    changes nothing; along a periodic axis the wrapped coordinate lies in
    [[0, box[i])], and along the other axes it is the coordinate itself.
    The code computes in binary64 and loses both properties by rounding
    alone ([Rounding], below). *)
Theorem wrap_idempotent_exact (box p : vec) :
  valid_box box ->
  List.length p = dim ->
  Forall2 Qeq (wrap box (wrap box p)) (wrap box p) /\
  forall i, (i < dim)%nat ->
    (0 < item box i ->
     0 <= item (wrap box p) i /\ item (wrap box p) i < item box i) /\
    (item box i == 0 -> item (wrap box p) i == item p i).
Proof.
  intros (Hlen & _ & _) Hp. split; [apply wrap_twice|].
  intros i Hi. rewrite wrap_item by lia. split.
  - apply wrap_coordinate_range.
  - apply wrap_coordinate_aperiodic.
Qed.

(** The constructor leaves a valid box. *)
Lemma init_valid_box (box0 : list length_or_inf) (bucket : nat)
  (tree : PeriodicKDTree) :
  init box0 bucket = Ok tree -> valid_box (box tree).
Proof.
  unfold init. destruct (List.length box0 =? dim)%nat eqn:Hlen;
    cbn [negb]; [|discriminate].
  destruct (existsb _ _) eqn:Hany; cbn [negb]; [|discriminate].
  intros [= <-]. cbn [box]. apply Nat.eqb_eq in Hlen.
  split; [now rewrite !length_map|]. split.
  - rewrite map_map. apply Forall_forall. intros y Hy.
    apply in_map_iff in Hy. destruct Hy as (l & <- & _).
    destruct (Qgtb _ 0) eqn:E; [|apply Qle_refl].
    apply Qlt_le_weak. now apply Qgtb_true.
  - apply existsb_exists in Hany. destruct Hany as (y & Hy & Hnz).
    apply Exists_exists. exists y. split; [exact Hy|].
    rewrite map_map in Hy. apply in_map_iff in Hy.
    destruct Hy as (l & <- & _).
    destruct (Qgtb _ 0) eqn:E; [now apply Qgtb_true|discriminate Hnz].
Qed.

(** The wrapping expression in the arithmetic of the code. *)
Module Rounding.
Import PrimFloat.
Local Open Scope float_scope.

Lemma floor_examples :
  map Binary64.floor [2.5; -2.5; 7; -0x1p-70; 0x1p60; -0.5]
  = [2; -3; 7; -1; 0x1p60; -1].
Proof. vm_compute. reflexivity. Qed.

(** C9.  In binary64 the wrapping leaves the central cell and is not
    idempotent.  [0x1.899999999999ap+3] and [0x1.a233333333333p+7] are the
    binary64 values of [12.3] and [209.1], inside the guard of
    [set_coords]: with box length 12.3 the coordinate 209.1 wraps to
    [-2^-45], below zero, and wrapping that again gives
    12.299999999999972, another value. *)
Theorem wrap_leaves_cell_binary64 :
  let box := [0x1.899999999999ap+3; 0x1.899999999999ap+3;
              0x1.899999999999ap+3] in
  let p := [0x1.a233333333333p+7; 5; 5] in
  Binary64.wrap box p = [-0x1p-45; 5; 5] /\
  (-0x1p-45 <? 0) = true /\
  Binary64.wrap box (Binary64.wrap box p) = [0x1.899999999998ap+3; 5; 5] /\
  Binary64.wrap box (Binary64.wrap box p) <> Binary64.wrap box p.
Proof.
  cbv zeta. split; [vm_compute; reflexivity|].
  split; [vm_compute; reflexivity|]. split; [vm_compute; reflexivity|].
  intro H.
  apply (f_equal (fun l => match l with x :: _ => x <? 0 | [] => false end))
    in H.
  vm_compute in H. discriminate H.
Qed.

(** A second input: with a box length of 10 the coordinate [-2^-70] wraps
    to 10 itself, outside [[0, 10)], and wrapping again gives 0. *)
Lemma wrap_not_idempotent_binary64 :
  Binary64.wrap [10; 10; 10] [-0x1p-70; 5; 5] = [10; 5; 5] /\
  Binary64.wrap [10; 10; 10] (Binary64.wrap [10; 10; 10] [-0x1p-70; 5; 5])
  = [0; 5; 5] /\
  Binary64.wrap [10; 10; 10] (Binary64.wrap [10; 10; 10] [-0x1p-70; 5; 5])
  <> Binary64.wrap [10; 10; 10] [-0x1p-70; 5; 5].
Proof.
  split; [vm_compute; reflexivity|]. split; [vm_compute; reflexivity|].
  intro H. apply (f_equal (fun l => match l with x :: _ => x =? 0 | [] => false end)) in H.
  vm_compute in H. discriminate H.
Qed.

End Rounding.

(** ** C10: a raising [search] changes nothing *)

(** C10.  When [search] raises, it does so for an object that is not built
    or for a centre of the wrong shape, and it leaves the whole object as
    it found it: [get_indices] returns what it returned before the call. *)
Theorem search_raise_atomic
  (radius_indices : list vec -> vec -> Q -> option (list nat))
  (center : ndarray) (radius : Q) (self : PeriodicKDTree) (e : exn) :
  fst (search radius_indices center radius self) = Raise e ->
  (e = NotBuiltError \/ e = ShapeError) /\
  snd (search radius_indices center radius self) = self /\
  fst (get_indices (snd (search radius_indices center radius self)))
  = fst (get_indices self).
Proof.
  intro Hraise.
  destruct (built self) eqn:Hb.
  - destruct (list_eq_dec Nat.eq_dec (shape center) [dim]) as [Hs|Hs].
    + rewrite (search_completes _ _ _ _ Hb Hs) in Hraise.
      discriminate Hraise.
    + rewrite (search_bad_shape _ _ _ _ Hb Hs) in *. cbn [fst snd] in *.
      injection Hraise as <-. auto.
  - rewrite (search_unbuilt _ _ _ _ Hb) in *. cbn [fst snd] in *.
    injection Hraise as <-. auto.
Qed.

Lemma search_raise_atomic_witness :
  snd (search (scan_indices None) flat_center (3 # 2) searched_tree)
  = searched_tree /\
  fst (get_indices
         (snd (search (scan_indices None) flat_center (3 # 2) searched_tree)))
  = Ok (Some [0; 2; 4]%nat).
Proof.
  destruct (search_raise_atomic (scan_indices None) flat_center (3 # 2)
              searched_tree ShapeError) as (_ & Hsame & Hget).
  - vm_compute. reflexivity.
  - split; [exact Hsame|]. rewrite Hget. vm_compute. reflexivity.
Defined.

(** * Further properties of the class *)

(** ** The constructor *)

Lemma normalised_length_periodic (l : length_or_inf) :
  Qneqb (let x := match l with Inf => 0 | Len q => q end in
         if Qgtb x 0 then x else 0) 0
  = periodic_length l.
Proof.
  destruct l as [q|]; cbn [periodic_length]; [|reflexivity].
  unfold Qneqb. destruct (Qgtb q 0) eqn:E; [|reflexivity].
  apply Qgtb_true in E. apply negb_true_iff.
  destruct (Qeq_bool q 0) eqn:E0; [|reflexivity].
  apply Qeq_bool_iff in E0. rewrite E0 in E.
  exfalso. apply (Qlt_irrefl _ E).
Qed.

Lemma init_any_periodic (box0 : list length_or_inf) :
  existsb (fun x => Qneqb x 0)
    (map (fun x => if Qgtb x 0 then x else 0)
       (map (fun l => match l with Inf => 0 | Len q => q end) box0))
  = existsb periodic_length box0.
Proof.
  induction box0 as [|l box0 IH]; [reflexivity|].
  cbn [map existsb]. rewrite IH. f_equal.
  apply normalised_length_periodic.
Qed.

Lemma existsb_false_iff {A : Type} (f : A -> bool) (l : list A) :
  existsb f l = false <-> forall x, In x l -> f x = false.
Proof.
  split.
  - intros H x Hx. destruct (f x) eqn:E; [|reflexivity].
    assert (Ht : existsb f l = true) by (apply existsb_exists; eauto).
    congruence.
  - intro H. destruct (existsb f l) eqn:E; [|reflexivity].
    apply existsb_exists in E. destruct E as (x & Hx & Hfx).
    rewrite (H x Hx) in Hfx. discriminate Hfx.
Qed.

Lemma nth_map_some {A B : Type} (f : A -> B) (l : list A) (i : nat) (x : A)
  (d : B) :
  nth_error l i = Some x -> nth i (map f l) d = f x.
Proof.
  revert i. induction l as [|y l IH]; intros [|i]; cbn; try discriminate.
  - now intros [= ->].
  - apply IH.
Qed.

(** X1.  The constructor raises "Expected array of length 3" exactly for a
    box that has not three entries; for three entries it raises "No
    periodic axis found" exactly when none of them is a number above zero
    (each is [inf], zero or negative); in every other case it returns an
    object. *)
Theorem init_raises_iff (box0 : list length_or_inf) (bucket : nat) :
  (init box0 bucket = Raise ConfigurationError_length <->
   List.length box0 <> dim) /\
  (init box0 bucket = Raise ConfigurationError_aperiodic <->
   List.length box0 = dim /\
   forall l, In l box0 -> periodic_length l = false) /\
  ((exists tree, init box0 bucket = Ok tree) <->
   List.length box0 = dim /\
   exists l, In l box0 /\ periodic_length l = true).
Proof.
  unfold init. rewrite init_any_periodic.
  destruct (List.length box0 =? dim)%nat eqn:Hlen; cbn [negb].
  - apply Nat.eqb_eq in Hlen.
    destruct (existsb periodic_length box0) eqn:Hany; cbn [negb].
    + pose proof Hany as Hex. apply existsb_exists in Hex.
      split; [split; [discriminate|intro H; contradiction]|]. split.
      * split; [discriminate|]. intros [_ H].
        apply existsb_false_iff in H. congruence.
      * split; [intros _; split; assumption|].
        intros _. eexists. reflexivity.
    + pose proof (proj1 (existsb_false_iff _ _) Hany) as Hall.
      split; [split; [discriminate|intro H; contradiction]|]. split.
      * split; [intros _; split; assumption|reflexivity].
      * split; [intros [tree H]; discriminate H|].
        intros [_ (l & Hl & Hp)]. rewrite (Hall l Hl) in Hp.
        discriminate Hp.
  - apply Nat.eqb_neq in Hlen.
    split; [split; [intros _; assumption|reflexivity]|]. split.
    + split; [discriminate|]. intros [H _]. contradiction.
    + split; [intros [tree H]; discriminate H|].
      intros [H _]. contradiction.
Qed.

(** X2.  An object the constructor returns is not built, holds the empty
    list as its result and no points in its tree, and its box is valid:
    three lengths, each the given number when that is above zero and zero
    otherwise. *)
Theorem init_result (box0 : list length_or_inf) (bucket : nat)
  (tree : PeriodicKDTree) :
  init box0 bucket = Ok tree ->
  built tree = false /\
  fst (get_indices tree) = Ok (Some []) /\
  data (kdt tree) = [] /\
  valid_box (box tree) /\
  forall i l, nth_error box0 i = Some l ->
    item (box tree) i
    = if periodic_length l then match l with Len q => q | Inf => 0 end
      else 0.
Proof.
  intro Hinit. pose proof (init_valid_box _ _ _ Hinit) as Hvalid.
  revert Hinit. unfold init.
  destruct (negb _); [discriminate|]. destruct (negb _); [discriminate|].
  intros [= <-]. cbn [built kdt data box get_indices read fst _indices].
  repeat split; try assumption; try apply Hvalid.
  intros i l Hi. unfold item. rewrite map_map.
  erewrite nth_map_some by exact Hi. destruct l as [q|]; reflexivity.
Qed.

Lemma init_result_witness :
  item (box fresh_tree) 0 = 10 /\ built fresh_tree = false.
Proof.
  destruct (init_result main_box 10 fresh_tree) as (Hb & _ & _ & _ & Hbox).
  - vm_compute. reflexivity.
  - split; [|exact Hb]. rewrite (Hbox 0%nat (Len 10)); reflexivity.
Defined.

(** ** [set_coords] *)

Lemma range_guard_cases (coords : ndarray) :
  (flat coords = [] /\ range_guard coords = Raise ZeroSizeError) \/
  (flat coords <> [] /\ range_guard coords = Ok true /\
   exists x, In x (flat coords) /\ outside_bound x) \/
  (flat coords <> [] /\ range_guard coords = Ok false /\
   forall x, In x (flat coords) -> ~ outside_bound x).
Proof.
  destruct (range_guard coords) as [[|]|e] eqn:E.
  - right; left. pose proof (proj1 (range_guard_true_iff coords) E) as Hex.
    repeat split; [|exact Hex]. intro H0. destruct Hex as (x & Hx & _).
    rewrite H0 in Hx. contradiction.
  - right; right. repeat split.
    + intro H0. unfold range_guard in E. rewrite H0 in E. discriminate E.
    + intros x Hx Hout.
      assert (Ht : range_guard coords = Ok true)
        by (apply range_guard_true_iff; eauto).
      congruence.
  - left. pose proof (range_guard_raises _ _ E) as ->. split; [|reflexivity].
    unfold range_guard, np_min, np_max in E.
    destruct (flat coords) as [|x l]; [reflexivity|].
    destruct (out_of_range_low _); discriminate E.
Qed.

Lemma bad_coords_shape_false (coords : ndarray) :
  bad_coords_shape coords = false <-> exists n, shape coords = [n; dim].
Proof.
  unfold bad_coords_shape.
  destruct (shape coords) as [|n [|w [|x sh]]].
  - split; [discriminate|]. intros [n H]. discriminate H.
  - split; [discriminate|]. intros [m H]. discriminate H.
  - rewrite negb_false_iff, Nat.eqb_eq. split.
    + intros ->. now exists n.
    + intros [m H]. now injection H.
  - split; [discriminate|]. intros [m H]. discriminate H.
Qed.

(** X3.  The checks of [set_coords] in their order, for an array of
    numbers: an array without elements makes [min] raise; otherwise an
    element at or beyond a bound raises the range exception, whatever the
    shape; otherwise a shape other than [(N, 3)] raises "Expected a (N, 3)
    NumPy array"; and the call returns normally exactly when the array has
    elements, all within the bounds, and the shape [(N, 3)]. *)
Theorem set_coords_outcome (coords : ndarray) (self : PeriodicKDTree) :
  (fst (set_coords coords self) = Raise ZeroSizeError <-> flat coords = []) /\
  (fst (set_coords coords self) = Raise RangeError <->
   exists x, In x (flat coords) /\ outside_bound x) /\
  (fst (set_coords coords self) = Raise ShapeError_coords <->
   flat coords <> [] /\
   (forall x, In x (flat coords) -> ~ outside_bound x) /\
   forall n, shape coords <> [n; dim]) /\
  (fst (set_coords coords self) = Ok tt <->
   flat coords <> [] /\
   (forall x, In x (flat coords) -> ~ outside_bound x) /\
   exists n, shape coords = [n; dim]).
Proof.
  unfold set_coords.
  destruct (range_guard_cases coords)
    as [[H0 Hg]|[(H0 & Hg & x & Hx & Hout)|(H0 & Hg & Hin)]]; rewrite Hg.
  - cbn. split; [split; auto|]. split; [|split].
    + split; [discriminate|]. intros (y & Hy & _).
      rewrite H0 in Hy. contradiction.
    + split; [discriminate|]. intros [H _]. contradiction.
    + split; [discriminate|]. intros [H _]. contradiction.
  - cbn. split; [split; [discriminate|intro; contradiction]|].
    split; [|split].
    + split; [intros _; eauto|reflexivity].
    + split; [discriminate|]. intros (_ & Hin & _).
      exfalso. exact (Hin x Hx Hout).
    + split; [discriminate|]. intros (_ & Hin & _).
      exfalso. exact (Hin x Hx Hout).
  - assert (Hnone : ~ exists y, In y (flat coords) /\ outside_bound y).
    { intros (y & Hy & Hyout). exact (Hin y Hy Hyout). }
    destruct (bad_coords_shape coords) eqn:Hs.
    + assert (Hno : forall n, shape coords <> [n; dim]).
      { intros n Hn.
        assert (Hf : bad_coords_shape coords = false)
          by (apply bad_coords_shape_false; eauto).
        congruence. }
      cbn. split; [split; [discriminate|intro; contradiction]|].
      split; [|split].
      * split; [discriminate|]. intro H. contradiction.
      * split; [intros _; auto|reflexivity].
      * split; [discriminate|]. intros (_ & _ & n & Hn).
        exfalso. exact (Hno n Hn).
    + apply bad_coords_shape_false in Hs. destruct Hs as [n Hn].
      destruct self as [t bl bx idx]. cbn.
      split; [split; [discriminate|intro; contradiction]|].
      split; [|split].
      * split; [discriminate|]. intro H. contradiction.
      * split; [discriminate|]. intros (_ & _ & Hno).
        exfalso. exact (Hno n Hn).
      * split; [intros _; eauto|reflexivity].
Qed.

(** X4.  A [set_coords] that raises does so with one of its three
    exceptions and leaves the object as it was: the points of the tree,
    the flag [built] and the stored result are those of before. *)
Theorem set_coords_raise_atomic (coords : ndarray) (self : PeriodicKDTree)
  (e : exn) :
  fst (set_coords coords self) = Raise e ->
  (e = ZeroSizeError \/ e = RangeError \/ e = ShapeError_coords) /\
  snd (set_coords coords self) = self.
Proof.
  unfold set_coords.
  destruct (range_guard coords) as [[|]|e'] eqn:E; cbn.
  - intros [= <-]. auto.
  - destruct (bad_coords_shape coords); cbn.
    + intros [= <-]. auto.
    + destruct self; cbn. discriminate.
  - intros [= <-]. apply range_guard_raises in E. auto.
Qed.

Lemma set_coords_raise_atomic_witness :
  snd (set_coords (mk_ndarray [2; 2]%nat [1; 2; 3; 4]) searched_tree)
  = searched_tree.
Proof.
  apply (set_coords_raise_atomic (mk_ndarray [2; 2]%nat [1; 2; 3; 4])
           searched_tree ShapeError_coords).
  vm_compute. reflexivity.
Defined.

Lemma set_coords_ok_inv (coords : ndarray) (self self' : PeriodicKDTree) :
  set_coords coords self = (Ok tt, self') ->
  (exists n, shape coords = [n; dim]) /\
  self' = mk_PeriodicKDTree
            (KDTree_set_data (wrapped_data (box self) coords) (kdt self))
            true (box self) (_indices self).
Proof.
  unfold set_coords.
  destruct (range_guard coords) as [[|]|e]; cbn; try discriminate.
  destruct (bad_coords_shape coords) eqn:Hs; cbn; [discriminate|].
  apply bad_coords_shape_false in Hs.
  destruct self; cbn. intros [= <-]. split; [exact Hs|reflexivity].
Qed.

Lemma rows_length (n w : nat) (l : list Q) : List.length (rows n w l) = n.
Proof.
  revert l. induction n as [|n IH]; intro l; cbn; [reflexivity|].
  now rewrite IH.
Qed.

Lemma rows_nth_error (n w : nat) (l : list Q) (j : nat) (r : vec) :
  nth_error (rows n w l) j = Some r -> r = firstn w (skipn (j * w) l).
Proof.
  revert l j. induction n as [|n IH]; intros l [|j]; cbn; try discriminate.
  - now intros [= <-].
  - intro H. apply IH in H. now rewrite skipn_skipn, Nat.add_comm in H.
Qed.

Lemma row_item (w : nat) (l : list Q) (j i : nat) :
  (i < w)%nat ->
  item (firstn w (skipn (j * w) l)) i = item l (j * w + i).
Proof.
  intro Hi. unfold item. rewrite nth_firstn.
  destruct (i <? w)%nat eqn:E; [|apply Nat.ltb_ge in E; lia].
  now rewrite nth_skipn.
Qed.

Lemma wrap_length (box x : vec) :
  List.length (wrap box x) = Nat.min (List.length x) (List.length box).
Proof.
  rewrite wrap_pointwise. revert box.
  induction x as [|xi x IH]; intros [|b box]; cbn; try reflexivity.
  now rewrite IH.
Qed.

(** X5.  After a [set_coords] that returns normally on a well-formed
    array, the tree holds one point per row, each of three coordinates;
    coordinate [i] of point [j] is the wrapping expression applied to
    element [(j, i)] of the array with the box length of axis [i], and
    along an axis that is not periodic it is the element itself. *)
Theorem set_coords_wraps_points (coords : ndarray)
  (self self' : PeriodicKDTree) :
  valid_box (box self) ->
  well_formed coords ->
  set_coords coords self = (Ok tt, self') ->
  List.length (data (kdt self')) = hd 0%nat (shape coords) /\
  forall j p, nth_error (data (kdt self')) j = Some p ->
    List.length p = dim /\
    forall i, (i < dim)%nat ->
      item p i = wrap_coordinate (item (box self) i)
                                 (item (flat coords) (j * dim + i)) /\
      (item (box self) i == 0 ->
       item p i == item (flat coords) (j * dim + i)).
Proof.
  intros (Hbox & _ & _) Hwf Hrun.
  destruct (set_coords_ok_inv _ _ _ Hrun) as [[n Hn] ->].
  cbn [kdt KDTree_set_data data]. unfold wrapped_data. rewrite Hn.
  cbn [hd]. split; [now rewrite length_map, rows_length|].
  intros j p Hp. rewrite nth_error_map in Hp.
  destruct (nth_error (rows n dim (flat coords)) j) as [r|] eqn:Hr;
    [|discriminate Hp].
  cbn in Hp. injection Hp as <-.
  assert (Hj : (j < n)%nat).
  { rewrite <- (rows_length n dim (flat coords)).
    apply nth_error_Some. congruence. }
  apply rows_nth_error in Hr. subst r.
  unfold well_formed in Hwf. rewrite Hn in Hwf. cbn [fold_right] in Hwf.
  assert (Hrow : List.length (firstn dim (skipn (j * dim) (flat coords)))
                 = dim).
  { rewrite length_firstn, length_skipn. unfold dim in *. lia. }
  split; [rewrite wrap_length; lia|].
  intros i Hi. rewrite wrap_item by lia. rewrite row_item by exact Hi.
  split; [reflexivity|]. apply wrap_coordinate_aperiodic.
Qed.

Lemma set_coords_wraps_points_witness :
  List.length (data (kdt built_tree)) = 5%nat.
Proof.
  apply (set_coords_wraps_points main_coords fresh_tree built_tree).
  - split; [reflexivity|]. split.
    + repeat constructor; discriminate.
    + apply Exists_cons_hd. reflexivity.
  - reflexivity.
  - vm_compute. reflexivity.
Defined.

(** ** [find_centers] *)

Lemma extent_le_half (b radius : Q) : extent b radius <= b / 2.
Proof.
  unfold extent. destruct (Qgtb (b / 2) radius) eqn:E.
  - apply Qlt_le_weak. now apply Qgtb_true.
  - apply Qle_refl.
Qed.

Lemma extent_le_radius (b radius : Q) : extent b radius <= radius.
Proof.
  unfold extent. destruct (Qgtb (b / 2) radius) eqn:E.
  - apply Qle_refl.
  - now apply Qgtb_false.
Qed.

Lemma Qltb_true (x y : Q) : Qltb x y = true <-> x < y.
Proof. exact (Qgtb_true y x). Qed.

Lemma item_extents (box : vec) (radius : Q) (i : nat) :
  item (np_where_l (map (fun e => Qgtb e radius) (map (fun b => b / 2) box))
                   radius (map (fun b => b / 2) box)) i
  = if (i <? List.length box)%nat then extent (item box i) radius else 0.
Proof.
  unfold item, np_where_l. revert i.
  induction box as [|b box IH]; intros [|i]; cbn; try reflexivity.
  apply IH.
Qed.

(** X9.  No axis asks for both images.  With the extents as
    [find_centers] computes them, an axis whose wrapped coordinate passes
    the test for the lower image fails the test for the upper image: the
    [elif] of the loop discards nothing. *)
Theorem lower_and_upper_exclusive (box wrapped_center : vec) (radius : Q)
  (i : nat) :
  let extents := map (fun b => b / 2) box in
  let extents :=
    np_where_l (map (fun e => Qgtb e radius) extents) radius extents in
  let extent := item extents i in
  Qgtb extent 0 = true ->
  Qltb (item box i - item wrapped_center i) extent = true ->
  Qltb (item wrapped_center i) extent = false.
Proof.
  cbv zeta. rewrite item_extents.
  destruct (i <? List.length box)%nat; [|discriminate].
  intros _ E1.
  destruct (Qltb (item wrapped_center i) (extent (item box i) radius)) eqn:E2;
    [|reflexivity].
  apply Qltb_true in E1, E2.
  pose proof (extent_le_half (item box i) radius) as Hh.
  exfalso.
  assert (H : item box i / 2 == item box i * (1 # 2)) by (field; discriminate).
  lra.
Qed.

Lemma lower_and_upper_exclusive_witness :
  Qltb (item [99 # 10; 5; 5] 0)
       (item (np_where_l
                (map (fun e => Qgtb e (3 # 2)) (map (fun b => b / 2) [10; 10; 10]))
                (3 # 2) (map (fun b => b / 2) [10; 10; 10])) 0)
  = false.
Proof.
  apply (lower_and_upper_exclusive [10; 10; 10] [99 # 10; 5; 5] (3 # 2) 0).
  - reflexivity.
  - reflexivity.
Defined.

Lemma flagged_needs_positive (box c : vec) (radius : Q) (i : nat) :
  flagged box c radius i = true -> 0 < radius /\ 0 < item box i.
Proof.
  unfold flagged, near_upper, near_lower. intro H.
  assert (E : Qgtb (extent (item box i) radius) 0 = true).
  { destruct (Qgtb (extent (item box i) radius) 0); [reflexivity|].
    discriminate H. }
  apply Qgtb_true in E.
  pose proof (extent_le_half (item box i) radius).
  pose proof (extent_le_radius (item box i) radius).
  assert (Hd : item box i / 2 == item box i * (1 # 2)) by (field; discriminate).
  split; lra.
Qed.

(** X7.  With a radius that is zero or negative no axis is flagged:
    [find_centers] returns the wrapped centre alone. *)
Theorem find_centers_without_radius (box center : vec) (radius : Q) :
  List.length box = dim ->
  radius <= 0 ->
  find_centers box center radius = [wrap box center].
Proof.
  intros Hbox Hr. unfold find_centers.
  rewrite (axis_displacements_flagged _ _ _ Hbox).
  assert (Hnone : forall i, flagged box (wrap box center) radius i = false).
  { intro i. destruct (flagged box (wrap box center) radius i) eqn:E;
      [|reflexivity].
    apply flagged_needs_positive in E. destruct E as [E _].
    exfalso. apply (Qlt_not_le _ _ E Hr). }
  cbn [seq dim filter]. rewrite !Hnone. reflexivity.
Qed.

Lemma find_centers_without_radius_witness :
  find_centers [10; 10; 10] [11; 2; 2] (- (1)) = [wrap [10; 10; 10] [11; 2; 2]].
Proof.
  apply (find_centers_without_radius [10; 10; 10] [11; 2; 2] (- (1))).
  - reflexivity.
  - discriminate.
Defined.

Lemma sublists_map {A B : Type} (f : A -> B) (l : list A) :
  sublists (map f l) = map (map f) (sublists l).
Proof.
  induction l as [|x l IH]; [reflexivity|].
  cbn [map sublists]. rewrite IH, map_app, !map_map. reflexivity.
Qed.

Lemma sublists_filter {A : Type} (f : A -> bool) (l s : list A) :
  In s (sublists (filter f l)) ->
  In s (sublists l) /\ Forall (fun x => f x = true) s.
Proof.
  revert s. induction l as [|x l IH]; intros s Hs.
  - cbn in Hs. destruct Hs as [<-|[]]. split; [now left|constructor].
  - cbn [filter] in Hs. cbn [sublists]. destruct (f x) eqn:E.
    + cbn [sublists] in Hs. apply in_app_or in Hs. destruct Hs as [Hs|Hs].
      * destruct (IH _ Hs) as [H1 H2]. split; [|exact H2].
        apply in_or_app. now left.
      * apply in_map_iff in Hs. destruct Hs as (s' & <- & Hs').
        destruct (IH _ Hs') as [H1 H2]. split; [|now constructor].
        apply in_or_app. right. now apply in_map.
    + destruct (IH _ Hs) as [H1 H2]. split; [|exact H2].
      apply in_or_app. now left.
Qed.

(** The sum of the displacements of a set of axes moves each of these
    axes by one box length, down or up, and no other axis. *)
Lemma image_of_axes (upper : nat -> bool) (box w : vec) (s : list nat) :
  List.length box = dim ->
  List.length w = dim ->
  In s (sublists (seq 0 dim)) ->
  exists k : list Z,
    List.length k = dim /\
    Forall (fun n => n = (-1)%Z \/ n = 0%Z \/ n = 1%Z) k /\
    vec_eq (translated w
              (map (fun i => setitem (np_zeros dim) i
                                (if upper i then - item box i else item box i))
                   s))
           (translate box w k) /\
    forall i, nth i k 0%Z <> 0%Z -> In i s.
Proof.
  intros Hbox Hw Hs.
  destruct box as [|b0 [|b1 [|b2 [|b3 box]]]]; try discriminate Hbox.
  destruct w as [|w0 [|w1 [|w2 [|w3 w]]]]; try discriminate Hw.
  cbn in Hs.
  set (sign := fun i => if upper i then (-1)%Z else 1%Z).
  assert (Hsign : forall i, sign i = (-1)%Z \/ sign i = 0%Z \/ sign i = 1%Z).
  { intro i. unfold sign. destruct (upper i); auto. }
  exists [if existsb (Nat.eqb 0) s then sign 0%nat else 0%Z;
          if existsb (Nat.eqb 1) s then sign 1%nat else 0%Z;
          if existsb (Nat.eqb 2) s then sign 2%nat else 0%Z].
  split; [reflexivity|].
  repeat (destruct Hs as [<-|Hs]); try contradiction;
    cbn [existsb Nat.eqb orb];
    (split;
     [repeat (apply Forall_cons; [first [now (right; left)|apply Hsign]|]);
      apply Forall_nil|]);
    (split;
     [unfold vec_eq, sign, translated, vector_sum, translate, np_add, item;
      cbn [map setitem np_zeros repeat dim nth zip_with];
      destruct (upper 0%nat), (upper 1%nat), (upper 2%nat);
      repeat (apply Forall2_cons; [ring|]); apply Forall2_nil
     |intros [|[|[|i]]] Hi; cbn [nth In] in *;
      first [congruence|tauto|destruct i; congruence]]).
Qed.

Lemma images_are_translations (box center : vec) (radius : Q) (c : vec) :
  List.length box = dim ->
  List.length center = dim ->
  In c (find_centers box center radius) ->
  exists k : list Z,
    List.length k = dim /\
    Forall (fun n => n = (-1)%Z \/ n = 0%Z \/ n = 1%Z) k /\
    vec_eq c (translate box (wrap box center) k) /\
    forall i, nth i k 0%Z <> 0%Z -> 0 < item box i.
Proof.
  intros Hbox Hcenter Hc.
  assert (Hw : List.length (wrap box center) = dim)
    by (rewrite wrap_length, Hbox, Hcenter; reflexivity).
  set (w := wrap box center) in *.
  assert (Hfc : find_centers box center radius =
                w :: map (fun d => np_add w d)
                       (combine_displacements
                          (map (axis_vector box w radius)
                             (filter (flagged box w radius) (seq 0 dim))))).
  { unfold find_centers. fold w.
    rewrite (axis_displacements_flagged _ _ _ Hbox). reflexivity. }
  rewrite Hfc in Hc.
  destruct (images_of_displacements w
              (map (axis_vector box w radius)
                 (filter (flagged box w radius) (seq 0 dim))))
    as [_ Hperm].
  { rewrite length_map. apply flagged_axes_length. }
  apply (Permutation_in _ Hperm) in Hc.
  rewrite sublists_map, map_map in Hc. apply in_map_iff in Hc.
  destruct Hc as (s & <- & Hs).
  apply sublists_filter in Hs. destruct Hs as [Hs Hflag].
  destruct (image_of_axes (near_upper box w radius) box w s Hbox Hw Hs)
    as (k & Hk & Hunit & Heq & Hin).
  exists k. repeat split; try assumption.
  intros i Hi. rewrite Forall_forall in Hflag.
  apply (flagged_needs_positive box w radius i). apply Hflag, Hin, Hi.
Qed.

(** X8.  Every centre that [find_centers] returns is the wrapped centre
    moved by whole box lengths: by -1, 0 or +1 box length along each axis,
    and by none along an axis that is not periodic. *)
Theorem find_centers_periodic_images (box center : vec) (radius : Q)
  (c : vec) :
  List.length box = dim ->
  List.length center = dim ->
  In c (find_centers box center radius) ->
  exists k : list Z,
    List.length k = dim /\
    Forall (fun n => n = (-1)%Z \/ n = 0%Z \/ n = 1%Z) k /\
    vec_eq c (translate box (wrap box center) k) /\
    forall i, nth i k 0%Z <> 0%Z -> 0 < item box i.
Proof.
  intros Hbox Hcenter Hc.
  destruct (images_are_translations box center radius c Hbox Hcenter Hc)
    as (k & Hk & Hunit & Heq & Hpos).
  exists k. auto.
Qed.

Lemma find_centers_periodic_images_witness :
  exists k : list Z,
    vec_eq [11; 2; 2] (translate [10; 10; 10] (wrap [10; 10; 10] [11; 2; 2]) k).
Proof.
  destruct (find_centers_periodic_images [10; 10; 10] [11; 2; 2] (3 # 2)
              [11; 2; 2] eq_refl eq_refl)
    as (k & _ & _ & Hk & _).
  - vm_compute. right. left. reflexivity.
  - exists k. exact Hk.
Defined.

(** ** [search] *)

Lemma queried_bucket_size radius_indices (radius : Q) (centers : list vec)
  (t : KDTree) :
  bucket_size (queried radius_indices radius centers t) = bucket_size t.
Proof.
  revert t. induction centers as [|c centers IH]; intro t; [reflexivity|].
  unfold queried in *. cbn. now rewrite IH.
Qed.

(** X10.  Whatever its outcome, [search] changes neither the box, nor the
    flag [built], nor the points held by the tree: only the stored result
    and the tree's own last answer can differ afterwards. *)
Theorem search_frame
  (radius_indices : list vec -> vec -> Q -> option (list nat))
  (center : ndarray) (radius : Q) (self : PeriodicKDTree) :
  box (snd (search radius_indices center radius self)) = box self /\
  built (snd (search radius_indices center radius self)) = built self /\
  data (kdt (snd (search radius_indices center radius self)))
  = data (kdt self) /\
  bucket_size (kdt (snd (search radius_indices center radius self)))
  = bucket_size (kdt self).
Proof.
  destruct (built self) eqn:Hb.
  - destruct (list_eq_dec Nat.eq_dec (shape center) [dim]) as [Hs|Hs].
    + rewrite (search_completes _ _ _ _ Hb Hs). cbn [snd box built kdt].
      rewrite queried_data, queried_bucket_size. auto.
    + rewrite (search_bad_shape _ _ _ _ Hb Hs). cbn [snd]. auto.
  - rewrite (search_unbuilt _ _ _ _ Hb). cbn [snd]. auto.
Qed.

Lemma search_ok_inv radius_indices (center : ndarray) (radius : Q)
  (self self' : PeriodicKDTree) :
  search radius_indices center radius self = (Ok tt, self') ->
  built self = true /\ shape center = [dim] /\
  _indices self'
  = option_map (fun a => np_sort (np_unique a))
      (first_found
         (image_answers radius_indices (data (kdt self)) (box self)
                        (flat center) radius)).
Proof.
  intro Hrun. destruct (built self) eqn:Hb.
  - destruct (list_eq_dec Nat.eq_dec (shape center) [dim]) as [Hs|Hs].
    + rewrite (search_completes _ _ _ _ Hb Hs) in Hrun.
      injection Hrun as <-. auto.
    + rewrite (search_bad_shape _ _ _ _ Hb Hs) in Hrun. discriminate Hrun.
  - rewrite (search_unbuilt _ _ _ _ Hb) in Hrun. discriminate Hrun.
Qed.

Lemma first_found_In (answers : list (option (list nat))) (a : list nat) :
  first_found answers = Some a -> In (Some a) answers.
Proof.
  induction answers as [|[b|] answers IH]; cbn; [discriminate| |].
  - intros [= ->]. now left.
  - intro H. right. now apply IH.
Qed.

Lemma indices_from_In (ok : vec -> bool) (d : list vec) (s i : nat) :
  In i (map fst (filter (fun ip => ok (snd ip))
                        (combine (seq s (List.length d)) d))) <->
  exists p, (s <= i)%nat /\ nth_error d (i - s) = Some p /\ ok p = true.
Proof.
  revert s. induction d as [|q d IH]; intro s.
  - cbn. split; [contradiction|]. intros (p & _ & H & _).
    destruct (i - s)%nat; discriminate H.
  - cbn [List.length seq combine filter snd].
    assert (Hrest : In i (map fst (filter (fun ip => ok (snd ip))
                                     (combine (seq (S s) (List.length d)) d)))
                    <-> exists p, (S s <= i)%nat /\
                                  nth_error d (i - S s) = Some p /\
                                  ok p = true) by apply IH.
    destruct (ok q) eqn:E; cbn [map fst In]; rewrite Hrest; split.
    + intros [<-|(p & Hle & Hp & Hok)].
      * exists q. rewrite Nat.sub_diag. auto.
      * exists p. split; [lia|]. split; [|exact Hok].
        replace (i - s)%nat with (S (i - S s)) by lia. exact Hp.
    + intros (p & Hle & Hp & Hok).
      destruct (Nat.eq_dec s i) as [->|Hne]; [now left|right].
      exists p. split; [lia|]. split; [|exact Hok].
      replace (i - s)%nat with (S (i - S s)) in Hp by lia. exact Hp.
    + intros (p & Hle & Hp & Hok). exists p. split; [lia|].
      split; [|exact Hok].
      replace (i - s)%nat with (S (i - S s)) by lia. exact Hp.
    + intros (p & Hle & Hp & Hok).
      destruct (Nat.eq_dec s i) as [->|Hne].
      * rewrite Nat.sub_diag in Hp. cbn in Hp. injection Hp as <-. congruence.
      * exists p. split; [lia|]. split; [|exact Hok].
        replace (i - s)%nat with (S (i - S s)) in Hp by lia. exact Hp.
Qed.

Lemma indices_where_In (ok : vec -> bool) (d : list vec) (i : nat) :
  In i (indices_where ok d) <->
  exists p, nth_error d i = Some p /\ ok p = true.
Proof.
  unfold indices_where. rewrite indices_from_In. rewrite Nat.sub_0_r.
  split.
  - intros (p & _ & H). now exists p.
  - intros (p & H). exists p. split; [lia|exact H].
Qed.

(** X12.  A stored point within the radius of the wrapped centre itself is
    always found: for a radius that is not negative, when [search] returns
    normally, the index of every such point is in the result. *)
Theorem search_finds_central_neighbours (when_empty : option (list nat))
  (center : ndarray) (radius : Q) (self self' : PeriodicKDTree)
  (i : nat) (p : vec) :
  0 <= radius ->
  search (scan_indices when_empty) center radius self = (Ok tt, self') ->
  nth_error (data (kdt self)) i = Some p ->
  dist2 p (wrap (box self) (flat center)) <= radius * radius ->
  exists result,
    fst (get_indices self') = Ok (Some result) /\ In i result.
Proof.
  intros _ Hrun Hp Hd.
  destruct (search_ok_inv _ _ _ _ _ Hrun) as (_ & _ & Hidx).
  unfold get_indices, read. cbn [fst]. rewrite Hidx.
  unfold image_answers, find_centers. cbn [app map first_found].
  assert (Hin : In i (indices_where
                        (fun q => Qle_bool
                                    (dist2 q (wrap (box self) (flat center)))
                                    (radius * radius))
                        (data (kdt self)))).
  { apply indices_where_In. exists p. split; [exact Hp|].
    now apply Qle_bool_iff. }
  unfold scan_indices.
  destruct (indices_where _ (data (kdt self))) as [|j l] eqn:E;
    [contradiction|].
  cbn [first_found option_map]. eexists. split; [reflexivity|].
  now rewrite np_sort_unique, np_unique_In.
Qed.

Lemma search_finds_central_neighbours_witness :
  exists result,
    fst (get_indices searched_tree) = Ok (Some result) /\ In 4%nat result.
Proof.
  apply (search_finds_central_neighbours None main_center (3 # 2)
           built_tree searched_tree 4%nat [1; 1; 3]).
  - discriminate.
  - vm_compute. reflexivity.
  - vm_compute. reflexivity.
  - vm_compute. discriminate.
Defined.

(** X11.  With the tree read as an exhaustive scan and a radius that is
    not negative, the result of a [search] that returns normally is the
    set of neighbours of one image centre: some centre returned by
    [find_centers] is such that an index is in the result exactly when it
    is the index of a stored point within the radius of that centre.  No
    index of the result is outside the stored points or further than the
    radius from every image. *)
Theorem search_result_of_one_image (when_empty : option (list nat))
  (center : ndarray) (radius : Q) (self self' : PeriodicKDTree)
  (result : list nat) :
  (forall l, when_empty = Some l -> l = []) ->
  0 <= radius ->
  search (scan_indices when_empty) center radius self = (Ok tt, self') ->
  fst (get_indices self') = Ok (Some result) ->
  exists c,
    In c (find_centers (box self) (flat center) radius) /\
    forall i, In i result <->
      exists p, nth_error (data (kdt self)) i = Some p /\
                dist2 p c <= radius * radius.
Proof.
  intros Hwe _ Hrun Hget.
  destruct (search_ok_inv _ _ _ _ _ Hrun) as (_ & _ & Hidx).
  unfold get_indices, read in Hget. cbn [fst] in Hget. rewrite Hidx in Hget.
  destruct (first_found _) as [a|] eqn:Hfirst; cbn [option_map] in Hget;
    [|discriminate Hget].
  injection Hget as <-.
  apply first_found_In in Hfirst. unfold image_answers in Hfirst.
  apply in_map_iff in Hfirst. destruct Hfirst as (c & Hscan & Hc).
  exists c. split; [exact Hc|]. intro i.
  rewrite np_sort_unique, np_unique_In.
  assert (Ha : a = indices_where
                     (fun p => Qle_bool (dist2 p c) (radius * radius))
                     (data (kdt self))).
  { unfold scan_indices in Hscan.
    destruct (indices_where _ (data (kdt self))) as [|j l] eqn:E.
    - now apply Hwe in Hscan.
    - now injection Hscan as <-. }
  rewrite Ha, indices_where_In. split.
  - intros (p & Hp & Hok). exists p. split; [exact Hp|].
    now apply Qle_bool_iff.
  - intros (p & Hp & Hok). exists p. split; [exact Hp|].
    now apply Qle_bool_iff.
Qed.

Lemma search_result_of_one_image_witness :
  exists c,
    In c (find_centers (box built_tree) (flat main_center) (3 # 2)) /\
    forall i, In i [0; 2; 4]%nat <->
      exists p, nth_error (data (kdt built_tree)) i = Some p /\
                dist2 p c <= (3 # 2) * (3 # 2).
Proof.
  apply (search_result_of_one_image None main_center (3 # 2) built_tree
           searched_tree [0; 2; 4]%nat).
  - intros l H. discriminate H.
  - discriminate.
  - vm_compute. reflexivity.
  - vm_compute. reflexivity.
Defined.

(** X15.  A search starts afresh: on two objects with the same box and
    the same points, the same query leaves the same result, whatever
    result and whatever last answer of the tree either held before. *)
Theorem search_result_independent
  (radius_indices : list vec -> vec -> Q -> option (list nat))
  (center : ndarray) (radius : Q)
  (self1 self2 self1' self2' : PeriodicKDTree) :
  box self1 = box self2 ->
  data (kdt self1) = data (kdt self2) ->
  search radius_indices center radius self1 = (Ok tt, self1') ->
  search radius_indices center radius self2 = (Ok tt, self2') ->
  fst (get_indices self1') = fst (get_indices self2').
Proof.
  intros Hbox Hdata H1 H2.
  destruct (search_ok_inv _ _ _ _ _ H1) as (_ & _ & E1).
  destruct (search_ok_inv _ _ _ _ _ H2) as (_ & _ & E2).
  unfold get_indices, read. cbn [fst]. rewrite E1, E2, Hbox, Hdata.
  reflexivity.
Qed.

Lemma search_result_independent_witness :
  fst (get_indices
         (snd (search (scan_indices None) main_center (3 # 2) searched_tree)))
  = fst (get_indices searched_tree).
Proof.
  apply (search_result_independent (scan_indices None) main_center (3 # 2)
           searched_tree built_tree).
  - reflexivity.
  - reflexivity.
  - vm_compute. reflexivity.
  - vm_compute. reflexivity.
Defined.

(** ** Histories *)

Lemma search_keeps_points radius_indices (center : ndarray) (radius : Q)
  (self : PeriodicKDTree) :
  box (snd (search radius_indices center radius self)) = box self /\
  data (kdt (snd (search radius_indices center radius self)))
  = data (kdt self).
Proof.
  destruct (built self) eqn:Hb.
  - destruct (list_eq_dec Nat.eq_dec (shape center) [dim]) as [Hs|Hs].
    + rewrite (search_completes _ _ _ _ Hb Hs). cbn [snd box kdt].
      now rewrite queried_data.
    + now rewrite (search_bad_shape _ _ _ _ Hb Hs).
  - now rewrite (search_unbuilt _ _ _ _ Hb).
Qed.

Lemma history_points_from radius_indices (calls : list call)
  (self : PeriodicKDTree) (acc : option ndarray) (b0 : vec)
  (d0 : list vec) :
  box self = b0 ->
  data (kdt self)
  = match acc with Some coords => wrapped_data b0 coords | None => d0 end ->
  box (after radius_indices calls self) = b0 /\
  data (kdt (after radius_indices calls self))
  = match last_coords radius_indices calls self acc with
    | Some coords => wrapped_data b0 coords
    | None => d0
    end.
Proof.
  revert self acc. induction calls as [|c calls IH]; intros self acc Hb Hd.
  - cbn. auto.
  - cbn [after last_coords]. destruct c as [coords|center radius];
      cbn [perform].
    + destruct (set_coords_cases coords self) as [[e H]|H]; rewrite H;
        cbn [fst snd].
      * now apply IH.
      * apply IH; cbn [box kdt KDTree_set_data data]; congruence.
    + destruct (search_keeps_points radius_indices center radius self)
        as [Hbox Hdata].
      destruct (fst (search radius_indices center radius self));
        apply IH; congruence.
Qed.

(** X13.  Along any history of calls the box stays the one the object
    started with, and the points held by the tree are the wrapped rows of
    the last [set_coords] that returned normally (the first points, when
    there was none): a raising [set_coords] and every [search] leave them
    alone. *)
Theorem history_points
  (radius_indices : list vec -> vec -> Q -> option (list nat))
  (calls : list call) (self : PeriodicKDTree) :
  box (after radius_indices calls self) = box self /\
  data (kdt (after radius_indices calls self))
  = match last_coords radius_indices calls self None with
    | Some coords => wrapped_data (box self) coords
    | None => data (kdt self)
    end.
Proof.
  apply (history_points_from radius_indices calls self None); reflexivity.
Qed.

Lemma history_result_from radius_indices (calls : list call)
  (self : PeriodicKDTree) :
  search_completed radius_indices calls self = false ->
  _indices (after radius_indices calls self) = _indices self.
Proof.
  revert self. induction calls as [|c calls IH]; intros self Hnone;
    [reflexivity|].
  cbn [after search_completed] in *.
  destruct c as [coords|center radius]; cbn [perform] in *.
  - assert (Hrest : search_completed radius_indices calls
                      (snd (set_coords coords self)) = false)
      by (destruct (fst (set_coords coords self)); exact Hnone).
    rewrite (IH _ Hrest).
    destruct (set_coords_cases coords self) as [[e H]|H]; now rewrite H.
  - destruct (search_cases radius_indices center radius self)
      as [H|[H|[self' H]]]; rewrite H in *; cbn [fst snd] in *.
    + now apply IH.
    + now apply IH.
    + discriminate Hnone.
Qed.

(** X14.  Until a [search] has returned normally the stored result is the
    empty list of the constructor: no [set_coords], raising or not, and no
    raising [search] puts anything into it. *)
Theorem result_before_first_search
  (radius_indices : list vec -> vec -> Q -> option (list nat))
  (box0 : list length_or_inf) (bucket : nat) (tree : PeriodicKDTree)
  (calls : list call) :
  init box0 bucket = Ok tree ->
  search_completed radius_indices calls tree = false ->
  fst (get_indices (after radius_indices calls tree)) = Ok (Some []).
Proof.
  intros Hinit Hnone. unfold get_indices, read. cbn [fst].
  rewrite (history_result_from _ _ _ Hnone).
  now destruct (init_unbuilt _ _ _ Hinit) as [_ ->].
Qed.

Lemma result_before_first_search_witness :
  fst (get_indices
         (after (scan_indices None)
            [call_search main_center (3 # 2); call_set_coords main_coords;
             call_search flat_center (3 # 2)]
            fresh_tree))
  = Ok (Some []).
Proof.
  apply (result_before_first_search (scan_indices None) main_box 10).
  - vm_compute. reflexivity.
  - vm_compute. reflexivity.
Defined.

Lemma queried_found radius_indices (radius : Q) (centers : list vec)
  (t : KDTree) (c0 : vec) :
  centers <> [] ->
  found (queried radius_indices radius centers t)
  = radius_indices (data t) (last centers c0) radius.
Proof.
  revert t. induction centers as [|c centers IH]; intros t Hne;
    [contradiction|].
  unfold queried in *. cbn [fold_left].
  destruct centers as [|c' centers]; [reflexivity|].
  rewrite IH by discriminate. reflexivity.
Qed.

(** X16.  Every image centre is put to the tree, in the order of
    [find_centers]: after a [search] that returns normally the last answer
    held by the tree is the answer for the last image centre, even though
    the stored result keeps only the first answer that is not [None]. *)
Theorem search_queries_every_image
  (radius_indices : list vec -> vec -> Q -> option (list nat))
  (center : ndarray) (radius : Q) (self self' : PeriodicKDTree) :
  search radius_indices center radius self = (Ok tt, self') ->
  kdt self'
  = fold_left
      (fun t c => KDTree_search_center_radius radius_indices c radius t)
      (find_centers (box self) (flat center) radius) (kdt self) /\
  found (kdt self')
  = radius_indices (data (kdt self))
      (last (find_centers (box self) (flat center) radius) []) radius.
Proof.
  intro Hrun. destruct (built self) eqn:Hb.
  - destruct (list_eq_dec Nat.eq_dec (shape center) [dim]) as [Hs|Hs].
    + rewrite (search_completes _ _ _ _ Hb Hs) in Hrun.
      assert (Hne : find_centers (box self) (flat center) radius <> [])
        by (unfold find_centers; discriminate).
      remember (find_centers (box self) (flat center) radius) as centers
        eqn:Ecs.
      injection Hrun as <-. cbn [kdt]. split; [reflexivity|].
      now apply queried_found.
    + rewrite (search_bad_shape _ _ _ _ Hb Hs) in Hrun. discriminate Hrun.
  - rewrite (search_unbuilt _ _ _ _ Hb) in Hrun. discriminate Hrun.
Qed.

Lemma search_queries_every_image_witness :
  found (kdt (snd (search (scan_indices None) face_center 1
                     (snd (set_coords face_coords fresh_tree)))))
  = Some [1%nat].
Proof.
  destruct (search_queries_every_image (scan_indices None) face_center 1
              (snd (set_coords face_coords fresh_tree))
              (snd (search (scan_indices None) face_center 1
                      (snd (set_coords face_coords fresh_tree)))))
    as [_ Hfound].
  - vm_compute. reflexivity.
  - rewrite Hfound. vm_compute. reflexivity.
Defined.
